(** * CaptionCam: the transcript ledger [SpeechLog] and the recognition
      session adapter [SpeechRecognizer] of app.js

    A shallow embedding of the two classes at the head of app.js and the
    properties of them that the design document states.

    - JavaScript strings are sequences of UTF-16 code units, so [jsstring]
      is [list N]; [length], [startsWith] and [endsWith] work on code units
      as the JavaScript methods of the same names do.
    - The ledger's methods mutate [this] and may raise [TypeError] on a
      property read of [undefined] or [null]; they are written in a small
      state / log / exception monad [M] in which the state reached before a
      throw is kept, as it is in JavaScript.
    - The adapter's callbacks are one transition function over the actions
      the page and the browser's recognizer can perform. *)

From stdpp Require Import base list numbers strings.
From Stdlib Require Import ZArith Lia.

Open Scope Z_scope.

(* ===================================================================== *)
(** ** JavaScript strings *)
(* ===================================================================== *)

Definition jsstring : Type := list N.

Module JsString.

(** [s.length] *)
Definition length (s : jsstring) : Z := Z.of_nat (List.length s).

(** [s.startsWith(p)] *)
Fixpoint startsWith (s p : jsstring) {struct p} : bool :=
  match p, s with
  | [], _ => true
  | _ :: _, [] => false
  | c :: p', d :: s' => if N.eqb c d then startsWith s' p' else false
  end.

(** [s.endsWith(p)] *)
Definition endsWith (s p : jsstring) : bool :=
  startsWith (rev s) (rev p).

(** An ASCII literal as a JavaScript string. *)
Definition lit (s : string) : jsstring :=
  List.map Ascii.N_of_ascii (String.list_ascii_of_string s).

(** [String(null)], what [null] becomes where a string is expected
    (the argument of [startsWith], the right operand of [text += ...]). *)
Definition null_text : jsstring := lit "null".

Definition toString (v : option jsstring) : jsstring :=
  match v with
  | Some s => s
  | None => null_text
  end.

(** The punctuation marks of [_addPunctuationIfNotExists], each one code
    unit. *)
Definition kuten : jsstring := [12290%N].           (* U+3002 *)
Definition touten : jsstring := [12289%N].          (* U+3001 *)
Definition wide_question : jsstring := [65311%N].   (* U+FF1F *)
Definition wide_exclamation : jsstring := [65281%N]. (* U+FF01 *)
Definition period : jsstring := lit ".".
Definition comma : jsstring := lit ",".
Definition question : jsstring := lit "?".
Definition exclamation : jsstring := lit "!".
Definition newline : jsstring := [10%N].

End JsString.

(* ===================================================================== *)
(** ** The recognizer's data, as the Web Speech API delivers it *)
(* ===================================================================== *)

(** [transcript] is [None] for [null]. *)
Record SpeechRecognitionAlternative : Type := mkAlternative {
  transcript : option jsstring
}.

(** A result is array-like: [result[0]] is its first alternative and is
    [undefined] when the result carries none. *)
Record SpeechRecognitionResult : Type := mkResult {
  isFinal : bool;
  alternatives : list SpeechRecognitionAlternative
}.

Record SpeechRecognitionEvent : Type := mkEvent {
  resultIndex : Z;
  results : list SpeechRecognitionResult
}.

(** [array[ix]] for an integer [ix]: [undefined] outside the array. *)
Definition item {A : Type} (array : list A) (ix : Z) : option A :=
  if ix <? 0 then None else array !! Z.to_nat ix.

(** [result[0]] *)
Definition top (r : SpeechRecognitionResult) : option SpeechRecognitionAlternative :=
  item (alternatives r) 0.

(** A final result with the one alternative [t]; an interim one. *)
Definition final (t : jsstring) : SpeechRecognitionResult :=
  mkResult true [mkAlternative (Some t)].
Definition interim (t : jsstring) : SpeechRecognitionResult :=
  mkResult false [mkAlternative (Some t)].

(* ===================================================================== *)
(** ** class SpeechLog *)
(* ===================================================================== *)

Module SpeechLog.

Record t : Type := mk {
  maxCharacters : Z;
  wholeLog : list SpeechRecognitionResult;
  currentResults : list SpeechRecognitionResult;
  interimResults : list SpeechRecognitionResult;
  indexFinished : Z
}.

(** [new SpeechLog(onLog)] *)
Definition new : t := mk 300 [] [] [] (-1).

Definition set_wholeLog (v : list SpeechRecognitionResult) (s : t) : t :=
  mk (maxCharacters s) v (currentResults s) (interimResults s) (indexFinished s).
Definition set_currentResults (v : list SpeechRecognitionResult) (s : t) : t :=
  mk (maxCharacters s) (wholeLog s) v (interimResults s) (indexFinished s).
Definition set_interimResults (v : list SpeechRecognitionResult) (s : t) : t :=
  mk (maxCharacters s) (wholeLog s) (currentResults s) v (indexFinished s).
Definition set_indexFinished (v : Z) (s : t) : t :=
  mk (maxCharacters s) (wholeLog s) (currentResults s) (interimResults s) v.
Definition set_maxCharacters (v : Z) (s : t) : t :=
  mk v (wholeLog s) (currentResults s) (interimResults s) (indexFinished s).

(** The messages handed to [onLog]; their text is a template over these
    numbers. *)
Inductive LogMessage : Type :=
| LogWarning (resultIndex indexFinished : Z)
| LogNewItems (count : nat) (resultIndex : Z)
| LogWholeLog (count : nat).

Inductive JsError : Type := TypeError.

Inductive completion (A : Type) : Type :=
| Normal (a : A)
| Throw (e : JsError).
Arguments Normal {A} a.
Arguments Throw {A} e.

(** A method body: from the ledger before to how it completed, the
    ledger after, and what it logged. *)
Definition M (A : Type) : Type := t -> completion A * t * list LogMessage.

Definition ret {A : Type} (a : A) : M A := fun s => (Normal a, s, []).

Definition bind {A B : Type} (m : M A) (k : A -> M B) : M B :=
  fun s =>
    match m s with
    | (Normal a, s1, l1) =>
        match k a s1 with
        | (c, s2, l2) => (c, s2, l1 ++ l2)
        end
    | (Throw e, s1, l1) => (Throw e, s1, l1)
    end.

Definition get : M t := fun s => (Normal s, s, []).
Definition modify (f : t -> t) : M unit := fun s => (Normal tt, f s, []).
Definition throw {A : Type} (e : JsError) : M A := fun s => (Throw e, s, []).
Definition onLog (m : LogMessage) : M unit := fun s => (Normal tt, s, [m]).

Declare Scope js_scope.
Delimit Scope js_scope with js.
Notation "x <- m ;; k" := (bind m (fun x => k))
  (at level 100, m at next level, right associativity) : js_scope.
Notation "m ;;; k" := (bind m (fun _ => k))
  (at level 100, right associativity) : js_scope.
Open Scope js_scope.

(** Reading a property of [o]: a [TypeError] when [o] is [undefined] or
    [null]. *)
Definition deref {A : Type} (o : option A) : M A :=
  match o with
  | Some a => ret a
  | None => throw TypeError
  end.

Definition when (b : bool) (m : M unit) : M unit :=
  if b then m else ret tt.

(** [array.forEach(body)] *)
Fixpoint forEach {A : Type} (array : list A) (body : A -> M unit) : M unit :=
  match array with
  | [] => ret tt
  | a :: rest => body a ;;; forEach rest body
  end.

(** A loop over [array] that carries the local variable [acc]. *)
Fixpoint foldM {A B : Type} (body : B -> A -> M B) (array : list A) (acc : B) : M B :=
  match array with
  | [] => ret acc
  | a :: rest => acc' <- body acc a ;; foldM body rest acc'
  end.

Definition outcome {A : Type} (r : completion A * t * list LogMessage) : completion A :=
  let '(c, _, _) := r in c.
Definition after {A : Type} (r : completion A * t * list LogMessage) : t :=
  let '(_, s, _) := r in s.
Definition logged {A : Type} (r : completion A * t * list LogMessage) : list LogMessage :=
  let '(_, _, l) := r in l.

(** *** init() *)
Definition init : M unit :=
  s <- get ;;
  when (0 <? Z.of_nat (length (currentResults s)))
    (modify (fun s => set_wholeLog (wholeLog s ++ currentResults s) s)) ;;;
  modify (set_currentResults []) ;;;
  modify (set_interimResults []) ;;;
  modify (set_indexFinished (-1)).

(** *** isString(value), on the values a transcript can take *)
Definition isString (value : option jsstring) : bool :=
  match value with
  | Some _ => true
  | None => false
  end.

(** *** getLastItem(array) *)
Definition getLastItem {A : Type} (array : list A) : option A :=
  if Z.of_nat (length array) <? 1 then None else last array.

(** [array.pop()] and [array.shift()], as the array they leave. *)
Definition pop {A : Type} (array : list A) : list A := removelast array.
Definition shift {A : Type} (array : list A) : list A := tail array.

(** *** _pushUpdate(result) *)
Definition _pushUpdate (result : SpeechRecognitionResult) : M unit :=
  if isFinal result then
    s <- get ;;
    match getLastItem (currentResults s) with
    | Some last =>
        alt <- deref (top result) ;;
        text <- deref (transcript alt) ;;
        lastAlt <- deref (top last) ;;
        when (JsString.startsWith text (JsString.toString (transcript lastAlt)))
          (modify (fun s => set_currentResults (pop (currentResults s)) s))
    | None => ret tt
    end ;;;
    modify (fun s => set_currentResults (currentResults s ++ [result]) s)
  else
    modify (fun s => set_interimResults (interimResults s ++ [result]) s).

(** *** _extractUpdate(result): the body of the loop at index [ix] *)
Definition extractStep (result : SpeechRecognitionEvent)
    (updatedItems : list SpeechRecognitionResult) (ix : Z)
    : M (list SpeechRecognitionResult) :=
  r <- deref (item (results result) ix) ;;
  when (isFinal r)
    (modify (fun s => set_indexFinished (Z.max ix (indexFinished s)) s)) ;;;
  alt <- deref (top r) ;;
  match transcript alt with
  | Some text =>
      if 0 <? JsString.length text then ret (updatedItems ++ [r])
      else ret updatedItems
  | None => ret updatedItems
  end.

Definition _extractUpdate (result : SpeechRecognitionEvent)
    : M (list SpeechRecognitionResult) :=
  s <- get ;;
  let ixBegin := Z.max (indexFinished s) (resultIndex result) in
  let length := Z.of_nat (length (results result)) in
  updatedItems <- foldM (extractStep result) (seqZ ixBegin (length - ixBegin)) [] ;;
  when (0 <? Z.of_nat (List.length updatedItems))
    (onLog (LogNewItems (List.length updatedItems) (resultIndex result))) ;;;
  ret updatedItems.

(** *** update(result) *)
Definition update (result : SpeechRecognitionEvent) : M bool :=
  s <- get ;;
  when (indexFinished s >=? resultIndex result)
    (onLog (LogWarning (resultIndex result) (indexFinished s))) ;;;
  results <- _extractUpdate result ;;
  if Z.of_nat (length results) <? 1 then ret false
  else
    modify (set_interimResults []) ;;;
    forEach results _pushUpdate ;;;
    ret true.

(** *** _trimCurrentResults(): the outer loop with [ix = n - 1]; on
    overflow the inner loop runs [shift()] for [i = 0 .. ix] and the
    outer loop is left. *)
Fixpoint trimLoop (n : nat) (sum : Z) : M unit :=
  match n with
  | O => ret tt
  | S ix =>
      s <- get ;;
      r <- deref (currentResults s !! ix) ;;
      alt <- deref (top r) ;;
      text <- deref (transcript alt) ;;
      let sum := sum + JsString.length text in
      if sum >? maxCharacters s then
        modify (fun s => set_currentResults (Nat.iter (S ix) shift (currentResults s)) s)
      else trimLoop ix sum
  end.

Definition _trimCurrentResults : M unit :=
  s <- get ;;
  trimLoop (length (currentResults s)) 0.

(** *** _addPunctuationIfNotExists(text) *)
Definition _addPunctuationIfNotExists (text : option jsstring) : jsstring :=
  let str := JsString.toString text in
  if negb (isString text) || (JsString.length str <? 1) then []
  else if JsString.endsWith str JsString.kuten
       || JsString.endsWith str JsString.touten
       || JsString.endsWith str JsString.wide_question
       || JsString.endsWith str JsString.wide_exclamation
       || JsString.endsWith str JsString.period
       || JsString.endsWith str JsString.comma
       || JsString.endsWith str JsString.question
       || JsString.endsWith str JsString.exclamation
  then str
  else str ++ JsString.kuten.

(** *** getCurrentSpeech() *)
Definition getCurrentSpeech : M jsstring :=
  s <- get ;;
  text <- foldM (fun text r =>
                   alt <- deref (top r) ;;
                   ret (text ++ _addPunctuationIfNotExists (transcript alt)))
                (currentResults s) [] ;;
  foldM (fun text r =>
           alt <- deref (top r) ;;
           ret (text ++ JsString.toString (transcript alt)))
        (interimResults s) text.

(** *** getWholeLog() *)
Definition logLine (log : list jsstring) (r : SpeechRecognitionResult) : M (list jsstring) :=
  alt <- deref (top r) ;;
  ret (log ++ [_addPunctuationIfNotExists (transcript alt) ++ JsString.newline]).

Definition getWholeLog : M (list jsstring) :=
  s <- get ;;
  onLog (LogWholeLog (length (wholeLog s))) ;;;
  log <- foldM logLine (wholeLog s) [] ;;
  log <- foldM logLine (currentResults s) log ;;
  foldM logLine (interimResults s) log.

End SpeechLog.

(* ===================================================================== *)
(** ** class SpeechRecognizer *)
(* ===================================================================== *)

Module SpeechRecognizer.

(** Which constructor [window] offers. *)
Inductive Window : Type :=
| WithSpeechRecognition
| WithWebkitSpeechRecognition
| WithoutRecognition.

(** [this.recognizer]: [undefined] before [init()], then the browser's
    object or [null]. *)
Inductive Recognizer : Type := Undefined | Null | Object.

Record t : Type := mk {
  recognizer : Recognizer;
  isSpeechAvailable : bool;
  available : bool;
  speechLog : SpeechLog.t
}.

(** [new SpeechRecognizer(options)] with [options.speechLog] given. *)
Definition new (speechLog : SpeechLog.t) : t := mk Undefined false true speechLog.

Definition set_speechLog (v : SpeechLog.t) (st : t) : t :=
  mk (recognizer st) (isSpeechAvailable st) (available st) v.
Definition set_available (v : bool) (st : t) : t :=
  mk (recognizer st) (isSpeechAvailable st) v (speechLog st).
Definition set_isSpeechAvailable (v : bool) (st : t) : t :=
  mk (recognizer st) v (available st) (speechLog st).
Definition set_recognizer (v : Recognizer) (st : t) : t :=
  mk v (isSpeechAvailable st) (available st) (speechLog st).

(** What the adapter does to the world around it: the owner's callbacks,
    the recognizer object's [start()], and an exception that leaves a
    handler uncaught. *)
Inductive Effect : Type :=
| Log (message : string)
| LogError (error message : string)
| LogNotAvailable
| LedgerLog (message : SpeechLog.LogMessage)
| Critical (error message : string)
| Updated (caption : jsstring)
| RecognizerStart
| Uncaught (e : SpeechLog.JsError).

(** The events the recognizer object delivers to its handler slots. *)
Inductive RecognizerEvent : Type :=
| onstart | onaudiostart | onsoundstart | onspeechstart
| onspeechend | onsoundend | onaudioend | onend
| onerror (error message : string)
| onnomatch
| onresult (ev : SpeechRecognitionEvent).

(** Run a ledger method on [this.speechLog]. *)
Definition onLedger {A : Type} (m : SpeechLog.M A) (st : t)
    : SpeechLog.completion A * t * list Effect :=
  match m (speechLog st) with
  | (c, s', logs) => (c, set_speechLog s' st, List.map LedgerLog logs)
  end.

(** *** init() *)
Definition init (window : Window) (st : t) : bool * t * list Effect :=
  match recognizer st with
  | Undefined =>
      match window with
      | WithSpeechRecognition =>
          (true, set_available true (set_recognizer Object st),
           [Log "SpeechRecognition found."])
      | WithWebkitSpeechRecognition =>
          (true, set_available true (set_recognizer Object st),
           [Log "webkitSpeechRecognition found."])
      | WithoutRecognition =>
          (false, set_available false (set_recognizer Null st),
           [Log "SpeechRecognition not found."])
      end
  | _ => (available st, st, [])
  end.

(** *** start() *)
Definition start (st : t) : bool * t * list Effect :=
  let begins := Log "SpeechRecognizer.start() begins." in
  if negb (available st)
     || match recognizer st with Object => false | _ => true end
  then (false, st, [begins])
  else
    match onLedger SpeechLog.init st with
    | (_, st', logs) => (true, st', begins :: logs ++ [RecognizerStart])
    end.

(** *** The handlers [init()] puts on the recognizer object *)
Definition handle (e : RecognizerEvent) (st : t) : t * list Effect :=
  match e with
  | onstart => (st, [Log "onstart"])
  | onaudiostart => (st, [Log "onaudiostart"])
  | onsoundstart => (st, [Log "onsoundstart"])
  | onspeechstart => (set_isSpeechAvailable true st, [Log "onspeechstart"])
  | onspeechend => (st, [Log "onspeechend"])
  | onsoundend => (st, [Log "onsoundend"])
  | onaudioend => (st, [Log "onaudioend"])
  | onend =>
      match onLedger SpeechLog.init st with
      | (_, st1, logs) =>
          if available st1 then
            match start st1 with
            | (_, st2, effs) => (st2, Log "onend" :: logs ++ effs)
            end
          else (st1, Log "onend" :: logs)
      end
  | onerror error message =>
      if negb (isSpeechAvailable st)
         && negb (String.eqb error "no-speech")
         && negb (String.eqb error "aborted")
      then (set_available false st,
            [LogError error message; LogNotAvailable; Critical error message])
      else (st, [LogError error message])
  | onnomatch => (st, [Log "onnomatch"])
  | onresult ev =>
      match onLedger (SpeechLog.update ev) st with
      | (SpeechLog.Normal true, st1, logs) =>
          match onLedger SpeechLog.getCurrentSpeech st1 with
          | (SpeechLog.Normal caption, st2, logs2) =>
              (st2, logs ++ logs2 ++ [Updated caption])
          | (SpeechLog.Throw err, st2, logs2) =>
              (st2, logs ++ logs2 ++ [Uncaught err])
          end
      | (SpeechLog.Normal false, st1, logs) => (st1, logs)
      | (SpeechLog.Throw err, st1, logs) => (st1, logs ++ [Uncaught err])
      end
  end.

(** What can happen to an adapter: the page calls [init()] or [start()],
    or the recognizer object, once [init()] has made it, delivers an
    event. *)
Inductive Action : Type :=
| CallInit
| CallStart
| Deliver (e : RecognizerEvent).

Definition step (window : Window) (a : Action) (st : t) : t * list Effect :=
  match a with
  | CallInit => let '(_, st', effs) := init window st in (st', effs)
  | CallStart => let '(_, st', effs) := start st in (st', effs)
  | Deliver e =>
      match recognizer st with
      | Object => handle e st
      | _ => (st, [])
      end
  end.

Fixpoint run (window : Window) (actions : list Action) (st : t) : t * list Effect :=
  match actions with
  | [] => (st, [])
  | a :: rest =>
      let '(st1, effs1) := step window a st in
      let '(st2, effs2) := run window rest st1 in
      (st2, effs1 ++ effs2)
  end.

Definition isCritical (e : Effect) : bool :=
  match e with Critical _ _ => true | _ => false end.
Definition isRecognizerStart (e : Effect) : bool :=
  match e with RecognizerStart => true | _ => false end.

(** How often [onCritical] was invoked, how often the recognizer was
    (re)started. *)
Definition criticalCount (effs : list Effect) : nat :=
  length (List.filter isCritical effs).
Definition startCount (effs : list Effect) : nat :=
  length (List.filter isRecognizerStart effs).

End SpeechRecognizer.

(* ===================================================================== *)
(** ** The page: the time stamp in the names of the downloaded files *)
(* ===================================================================== *)

Module Page.

(** [s.replaceAll(c, rep)] for a pattern [c] of one character, which is
    how the page uses it. *)
Definition replaceAll (s : jsstring) (c : N) (rep : jsstring) : jsstring :=
  flat_map (fun d => if N.eqb d c then rep else [d]) s.

(** [s.substring(first, last)] for indices that are not negative: the
    smaller one is the start, and both are cut down to the length. *)
Definition substring (s : jsstring) (first last : nat) : jsstring :=
  take (Nat.max first last - Nat.min first last) (drop (Nat.min first last) s).

(** [timestampText], from [timestamp.toISOString()], in both download
    handlers. *)
Definition timestampText (iso : jsstring) : jsstring :=
  substring
    (replaceAll
       (replaceAll
          (replaceAll (replaceAll iso 84 (JsString.lit "_")) 90 []) 58 []) 45 [])
    0 15.

(** [link.download] of the caption file and of the operation log. *)
Definition captionFileName (iso : jsstring) : jsstring :=
  JsString.lit "captioncam_" ++ timestampText iso ++ JsString.lit ".txt".
Definition opLogFileName (iso : jsstring) : jsstring :=
  JsString.lit "captioncam_op_" ++ timestampText iso ++ JsString.lit ".txt".

End Page.

(* ===================================================================== *)
(** ** Calls on a ledger, and what the stored results look like *)
(* ===================================================================== *)

(** The transcript of the top alternative, [null] when there is none to
    read. *)
Definition topTranscript (r : SpeechRecognitionResult) : option jsstring :=
  match top r with
  | Some alt => transcript alt
  | None => None
  end.

(** [r[0].transcript] can be read. *)
Definition hasTop (r : SpeechRecognitionResult) : bool :=
  match top r with
  | Some _ => true
  | None => false
  end.

(** The top transcript is a string that is not empty. *)
Definition hasText (r : SpeechRecognitionResult) : bool :=
  match topTranscript r with
  | Some text => 0 <? JsString.length text
  | None => false
  end.

(** The top transcript can be read and is [null] or the empty string. *)
Definition isBlank (r : SpeechRecognitionResult) : bool :=
  hasTop r && negb (hasText r).

(** The public methods, as calls the owner makes one after the other. A
    call that throws leaves the ledger as it was at the throw, and the
    next call finds it so. *)
Inductive LedgerCall : Type :=
| Init
| Update (ev : SpeechRecognitionEvent)
| GetCurrentSpeech
| GetWholeLog.

Definition call (c : LedgerCall) (s : SpeechLog.t) : SpeechLog.t :=
  match c with
  | Init => SpeechLog.after (SpeechLog.init s)
  | Update ev => SpeechLog.after (SpeechLog.update ev s)
  | GetCurrentSpeech => SpeechLog.after (SpeechLog.getCurrentSpeech s)
  | GetWholeLog => SpeechLog.after (SpeechLog.getWholeLog s)
  end.

Definition calls (cs : list LedgerCall) (s : SpeechLog.t) : SpeechLog.t :=
  fold_left (fun s c => call c s) cs s.

(** Total number of code units in the top transcripts of [rs]. *)
Definition totalLength (rs : list SpeechRecognitionResult) : Z :=
  fold_right (fun r n => JsString.length (JsString.toString (topTranscript r)) + n) 0 rs.

(** Every stored result has a non-empty top transcript. *)
Definition stored_with_text (s : SpeechLog.t) : Prop :=
  Forall (fun r => hasText r = true) (SpeechLog.wholeLog s)
  /\ Forall (fun r => hasText r = true) (SpeechLog.currentResults s)
  /\ Forall (fun r => hasText r = true) (SpeechLog.interimResults s).

(** The indices [_extractUpdate] visits for [ev] on ledger [s]. *)
Definition scanStart (s : SpeechLog.t) (ev : SpeechRecognitionEvent) : Z :=
  Z.max (SpeechLog.indexFinished s) (resultIndex ev).

Definition scanned (s : SpeechLog.t) (ev : SpeechRecognitionEvent)
    : list SpeechRecognitionResult :=
  drop (Z.to_nat (scanStart s ev)) (results ev).

(** [_extractUpdate] can read everything it visits for [ev]: its first
    index is not negative, so that [results[ix]] is a result at every
    turn, and every visited result has a top alternative, so that
    [results[ix][0].transcript] is a string or [null]. *)
Definition readable (s : SpeechLog.t) (ev : SpeechRecognitionEvent) : bool :=
  (0 <=? scanStart s ev) && forallb hasTop (scanned s ev).

(** Two ledgers agree on the projection [f]. *)
Definition sameOn {B : Type} (f : SpeechLog.t -> B) : relation SpeechLog.t :=
  fun s s' => f s' = f s.

Definition indexGrows : relation SpeechLog.t :=
  fun s s' => SpeechLog.indexFinished s <= SpeechLog.indexFinished s'.

(** A method moves the ledger along [R], whether it returns or throws. *)
Definition keeps (R : relation SpeechLog.t) {A : Type} (m : SpeechLog.M A) : Prop :=
  forall s, R s (SpeechLog.after (m s)).

(** What [update] leaves alone while it extracts. *)
Definition lists (s : SpeechLog.t) :=
  (SpeechLog.maxCharacters s, SpeechLog.wholeLog s,
   SpeechLog.currentResults s, SpeechLog.interimResults s).

(** [_pushUpdate(r)] drops the last current entry first: its transcript
    is a prefix of [r]'s. *)
Definition absorbs (r : SpeechRecognitionResult)
    (current : list SpeechRecognitionResult) : bool :=
  match last current with
  | Some l => JsString.startsWith (JsString.toString (topTranscript r))
                                  (JsString.toString (topTranscript l))
  | None => false
  end.

(** The ledger [_pushUpdate(r)] leaves when nothing in it throws. *)
Definition pushed (r : SpeechRecognitionResult) (s : SpeechLog.t) : SpeechLog.t :=
  if isFinal r then
    SpeechLog.set_currentResults
      ((if absorbs r (SpeechLog.currentResults s)
        then removelast (SpeechLog.currentResults s)
        else SpeechLog.currentResults s) ++ [r]) s
  else
    SpeechLog.set_interimResults (SpeechLog.interimResults s ++ [r]) s.

(** The warning of [update], when it is due. *)
Definition warning (s : SpeechLog.t) (ev : SpeechRecognitionEvent)
    : list SpeechLog.LogMessage :=
  if SpeechLog.indexFinished s >=? resultIndex ev
  then [SpeechLog.LogWarning (resultIndex ev) (SpeechLog.indexFinished s)]
  else [].

(** The line [getWholeLog] writes for a result. *)
Definition lineOf (r : SpeechRecognitionResult) : jsstring :=
  SpeechLog._addPunctuationIfNotExists (topTranscript r) ++ JsString.newline.

(** An adapter is available for as long as [init()] has not run. *)
Definition fresh_or_initialised (st : SpeechRecognizer.t) : Prop :=
  SpeechRecognizer.recognizer st = SpeechRecognizer.Undefined ->
  SpeechRecognizer.available st = true.

(** The characters after which [_addPunctuationIfNotExists] adds nothing. *)
Definition isTerminal (c : N) : bool :=
  bool_decide (c ∈ [12290; 12289; 65311; 65281; 46; 44; 63; 33]%N).

(** Every archived and current entry is a final result, every interim
    entry is not. *)
Definition finals_apart (s : SpeechLog.t) : Prop :=
  Forall (fun r => isFinal r = true) (SpeechLog.wholeLog s)
  /\ Forall (fun r => isFinal r = true) (SpeechLog.currentResults s)
  /\ Forall (fun r => isFinal r = false) (SpeechLog.interimResults s).

(** From [s] to [s'] no current entry but the newest has gone, and the
    current entries have not become fewer. *)
Definition olderKept : relation SpeechLog.t :=
  fun s s' =>
    removelast (SpeechLog.currentResults s) `prefix_of` SpeechLog.currentResults s'
    /\ (length (SpeechLog.currentResults s) <= length (SpeechLog.currentResults s'))%nat.

(** The caption [getCurrentSpeech] puts together. *)
Definition captionOf (s : SpeechLog.t) : jsstring :=
  concat (List.map (fun r => SpeechLog._addPunctuationIfNotExists (topTranscript r))
            (SpeechLog.currentResults s))
  ++ concat (List.map (fun r => JsString.toString (topTranscript r))
               (SpeechLog.interimResults s)).

(** From [s] to [s'] the property [I] is not lost. *)
Definition carries (I : SpeechLog.t -> Prop) : relation SpeechLog.t :=
  fun s s' => I s -> I s'.

(** The event has a final result at index [ix]. *)
Definition finalAt (ev : SpeechRecognitionEvent) (ix : Z) : Prop :=
  exists r, item (results ev) ix = Some r /\ isFinal r = true.

(** The actions that make [start()] run: the page's call and the
    recognizer's [end] event. *)
Definition asksToStart (a : SpeechRecognizer.Action) : bool :=
  match a with
  | SpeechRecognizer.CallStart => true
  | SpeechRecognizer.Deliver SpeechRecognizer.onend => true
  | _ => false
  end.

(** The action is an [error] event that the adapter has a handler for,
    before any [speechstart], with a code other than 'no-speech' and
    'aborted'. *)
Definition isFatal (a : SpeechRecognizer.Action) (st : SpeechRecognizer.t) : bool :=
  match a, SpeechRecognizer.recognizer st with
  | SpeechRecognizer.Deliver (SpeechRecognizer.onerror error _), SpeechRecognizer.Object =>
      negb (SpeechRecognizer.isSpeechAvailable st)
      && negb (String.eqb error "no-speech") && negb (String.eqb error "aborted")
  | _, _ => false
  end.

Definition isUpdated (e : SpeechRecognizer.Effect) : bool :=
  match e with SpeechRecognizer.Updated _ => true | _ => false end.
Definition isUncaught (e : SpeechRecognizer.Effect) : bool :=
  match e with SpeechRecognizer.Uncaught _ => true | _ => false end.

(** A decimal digit. *)
Definition isDigit (d : N) : bool := (48 <=? d)%N && (d <=? 57)%N.

(** What [Date.prototype.toISOString] returns for a year of four digits:
    YYYY-MM-DDTHH:mm:ss.sssZ. *)
Definition isoString (y1 y2 y3 y4 mo1 mo2 d1 d2 h1 h2 mi1 mi2 s1 s2 f1 f2 f3 : N)
    : jsstring :=
  [y1; y2; y3; y4; 45; mo1; mo2; 45; d1; d2; 84; h1; h2; 58; mi1; mi2; 58; s1; s2; 46;
   f1; f2; f3; 90]%N.

(** The result of a method, with the budget of the ledger it leaves set
    to [m]. *)
Definition withBudget {A : Type} (m : Z)
    (r : SpeechLog.completion A * SpeechLog.t * list SpeechLog.LogMessage)
    : SpeechLog.completion A * SpeechLog.t * list SpeechLog.LogMessage :=
  let '(c, s, l) := r in (c, SpeechLog.set_maxCharacters m s, l).

(* ===================================================================== *)
(** ** Strings *)
(* ===================================================================== *)

Section StringFacts.

Lemma startsWith_prefix (s p : jsstring) :
  JsString.startsWith s p = true <-> p `prefix_of` s.
Proof.
  revert s. induction p as [|c p IH]; intros s; simpl.
  - split; [intros _; apply prefix_nil | done].
  - destruct s as [|d s].
    + split; [done | intros H; by apply prefix_nil_not in H].
    + destruct (N.eqb_spec c d) as [->|Hne].
      * rewrite IH. split; [apply prefix_cons | apply prefix_cons_inv_2].
      * split; [done | intros H; apply prefix_cons_inv_1 in H; done].
Qed.

Lemma endsWith_one (body : jsstring) (c d : N) :
  JsString.endsWith (body ++ [c]) [d] = N.eqb d c.
Proof.
  unfold JsString.endsWith. rewrite rev_unit. simpl.
  by destruct (N.eqb d c).
Qed.

Lemma length_pos (s : jsstring) : (0 <? JsString.length s) = true <-> s <> [].
Proof.
  unfold JsString.length. destruct s; simpl; split; done.
Qed.

End StringFacts.

Lemma addPunctuation_null : SpeechLog._addPunctuationIfNotExists None = [].
Proof. reflexivity. Qed.

Lemma addPunctuation_empty : SpeechLog._addPunctuationIfNotExists (Some []) = [].
Proof. reflexivity. Qed.

Lemma addPunctuation_snoc (body : jsstring) (c : N) :
  SpeechLog._addPunctuationIfNotExists (Some (body ++ [c])) =
  if isTerminal c then body ++ [c] else body ++ [c] ++ JsString.kuten.
Proof.
  unfold SpeechLog._addPunctuationIfNotExists. simpl JsString.toString.
  assert (Hlen : (JsString.length (body ++ [c]) <? 1) = false).
  { apply Z.ltb_ge. unfold JsString.length. rewrite length_app. simpl. lia. }
  rewrite Hlen. simpl negb. simpl orb at 1.
  unfold JsString.kuten, JsString.touten, JsString.wide_question,
    JsString.wide_exclamation, JsString.period, JsString.comma,
    JsString.question, JsString.exclamation.
  change (JsString.lit ".") with [46%N]. change (JsString.lit ",") with [44%N].
  change (JsString.lit "?") with [63%N]. change (JsString.lit "!") with [33%N].
  rewrite !endsWith_one. unfold isTerminal.
  case_bool_decide as Hin.
  - assert (H : (12290 =? c)%N || (12289 =? c)%N || (65311 =? c)%N
                || (65281 =? c)%N || (46 =? c)%N || (44 =? c)%N
                || (63 =? c)%N || (33 =? c)%N = true).
    { repeat (apply elem_of_cons in Hin as [-> | Hin];
              [by rewrite N.eqb_refl, ?orb_true_r |]).
      by apply elem_of_nil in Hin. }
    by rewrite H.
  - assert (H : (12290 =? c)%N || (12289 =? c)%N || (65311 =? c)%N
                || (65281 =? c)%N || (46 =? c)%N || (44 =? c)%N
                || (63 =? c)%N || (33 =? c)%N = false).
    { repeat (apply orb_false_intro); apply N.eqb_neq; intros <-;
        apply Hin; rewrite !elem_of_cons; tauto. }
    rewrite H. by rewrite <- app_assoc.
Qed.

(* ===================================================================== *)
(** ** Frame rules of the method monad *)
(* ===================================================================== *)

Global Instance sameOn_preorder {B : Type} (f : SpeechLog.t -> B) : PreOrder (sameOn f).
Proof.
  split; [intros s; reflexivity |].
  intros s1 s2 s3 H12 H23. unfold sameOn in *. congruence.
Qed.

Global Instance indexGrows_preorder : PreOrder indexGrows.
Proof. split; unfold indexGrows; [intros s | intros s1 s2 s3 ? ?]; lia. Qed.

Section Frame.
Import SpeechLog.
Context (R : relation SpeechLog.t) `{!PreOrder R}.

Lemma keeps_ret {A : Type} (a : A) : keeps R (ret a).
Proof. intros s. simpl. reflexivity. Qed.

Lemma keeps_get : keeps R get.
Proof. intros s. simpl. reflexivity. Qed.

Lemma keeps_throw {A : Type} (e : JsError) : keeps R (@throw A e).
Proof. intros s. simpl. reflexivity. Qed.

Lemma keeps_onLog (m : LogMessage) : keeps R (onLog m).
Proof. intros s. simpl. reflexivity. Qed.

Lemma keeps_deref {A : Type} (o : option A) : keeps R (deref o).
Proof. destruct o; [apply keeps_ret | apply keeps_throw]. Qed.

Lemma keeps_modify (f : t -> t) : (forall s, R s (f s)) -> keeps R (modify f).
Proof. intros Hf s. apply Hf. Qed.

Lemma keeps_bind {A B : Type} (m : M A) (k : A -> M B) :
  keeps R m -> (forall a, keeps R (k a)) -> keeps R (bind m k).
Proof.
  intros Hm Hk s. unfold bind. specialize (Hm s).
  destruct (m s) as [[[a|e] s1] l1]; simpl in *; [|done].
  specialize (Hk a s1). destruct (k a s1) as [[c s2] l2]; simpl in *.
  by etransitivity.
Qed.

Lemma keeps_when (b : bool) (m : M unit) : keeps R m -> keeps R (when b m).
Proof. intros Hm. destruct b; [done | apply keeps_ret]. Qed.

Lemma keeps_forEach {A : Type} (array : list A) (body : A -> M unit) :
  (forall a, keeps R (body a)) -> keeps R (forEach array body).
Proof.
  intros Hbody. induction array as [|a rest IH]; simpl.
  - apply keeps_ret.
  - apply keeps_bind; [apply Hbody | intros _; apply IH].
Qed.

Lemma keeps_foldM {A B : Type} (body : B -> A -> M B) (array : list A) (acc : B) :
  (forall b a, keeps R (body b a)) -> keeps R (foldM body array acc).
Proof.
  intros Hbody. revert acc. induction array as [|a rest IH]; intros acc; simpl.
  - apply keeps_ret.
  - apply keeps_bind; [apply Hbody | intros acc'; apply IH].
Qed.

End Frame.

(** Splits a method into its steps, leaving one goal per assignment to
    [this]. *)
Ltac frame :=
  repeat match goal with
    | |- PreOrder _ => apply _
    | |- forall _, _ => intro
    | |- keeps _ (SpeechLog.ret _) => apply keeps_ret
    | |- keeps _ SpeechLog.get => apply keeps_get
    | |- keeps _ (SpeechLog.throw _) => apply keeps_throw
    | |- keeps _ (SpeechLog.onLog _) => apply keeps_onLog
    | |- keeps _ (SpeechLog.deref _) => apply keeps_deref
    | |- keeps _ (SpeechLog.bind _ _) => apply keeps_bind
    | |- keeps _ (SpeechLog.when _ _) => apply keeps_when
    | |- keeps _ (SpeechLog.forEach _ _) => apply keeps_forEach
    | |- keeps _ (SpeechLog.foldM _ _ _) => apply keeps_foldM
    | |- keeps _ (SpeechLog.modify _) => apply keeps_modify
    | |- keeps _ (match ?x with _ => _ end) => destruct x
    | |- keeps _ _ => progress cbv beta
    end.

Section LedgerFrames.
Import SpeechLog.

Lemma extractUpdate_keeps_lists ev : keeps (sameOn lists) (_extractUpdate ev).
Proof. unfold _extractUpdate, extractStep. frame; by unfold sameOn. Qed.

Lemma update_keeps_wholeLog ev : keeps (sameOn wholeLog) (update ev).
Proof. unfold update, _extractUpdate, extractStep, _pushUpdate. frame; by unfold sameOn. Qed.

Lemma update_keeps_maxCharacters ev : keeps (sameOn maxCharacters) (update ev).
Proof. unfold update, _extractUpdate, extractStep, _pushUpdate. frame; by unfold sameOn. Qed.

Lemma update_index_grows ev : keeps indexGrows (update ev).
Proof.
  unfold update, _extractUpdate, extractStep, _pushUpdate.
  frame; unfold indexGrows; simpl; lia.
Qed.

Lemma getCurrentSpeech_keeps : keeps (sameOn id) getCurrentSpeech.
Proof. unfold getCurrentSpeech. frame. Qed.

Lemma getWholeLog_keeps : keeps (sameOn id) getWholeLog.
Proof. unfold getWholeLog, logLine. frame. Qed.

Lemma getCurrentSpeech_after s : after (getCurrentSpeech s) = s.
Proof. exact (getCurrentSpeech_keeps s). Qed.

Lemma getWholeLog_after s : after (getWholeLog s) = s.
Proof. exact (getWholeLog_keeps s). Qed.

Lemma init_run s :
  init s = (Normal tt, mk (maxCharacters s) (wholeLog s ++ currentResults s) [] [] (-1), []).
Proof.
  unfold init, bind, get, when, modify, ret.
  destruct s as [m whole [|r rs] inter ix]; simpl.
  - by rewrite app_nil_r.
  - reflexivity.
Qed.

End LedgerFrames.

(* ===================================================================== *)
(** ** _extractUpdate *)
(* ===================================================================== *)

Section Extraction.
Import SpeechLog.
Variable ev : SpeechRecognitionEvent.

(** One turn of the loop, case by case. *)
Lemma extractStep_run acc ix s :
  extractStep ev acc ix s =
  match item (results ev) ix with
  | None => (Throw TypeError, s, [])
  | Some r =>
      let s' := if isFinal r
                then set_indexFinished (Z.max ix (indexFinished s)) s else s in
      if hasTop r
      then (Normal (if hasText r then acc ++ [r] else acc), s', [])
      else (Throw TypeError, s', [])
  end.
Proof.
  unfold extractStep, bind, deref, when, ret, throw, modify, hasText, hasTop,
    topTranscript.
  destruct (item (results ev) ix) as [r|]; [|done].
  destruct (isFinal r); simpl; destruct (top r) as [alt|]; simpl; try done;
    destruct (transcript alt) as [text|]; simpl; try done;
    by destruct (0 <? JsString.length text).
Qed.

(** Whatever the event, the loop logs nothing and collects only results
    with a non-empty top transcript. *)
Lemma extractLoop_logged ixs acc s :
  logged (foldM (extractStep ev) ixs acc s) = [].
Proof.
  revert acc s. induction ixs as [|ix ixs IH]; intros acc s; [done|].
  simpl. unfold bind at 1. rewrite extractStep_run.
  destruct (item (results ev) ix) as [r|]; [|done]. simpl.
  destruct (hasTop r); [|done].
  match goal with |- context [foldM _ ixs ?a ?s'] =>
    specialize (IH a s'); destruct (foldM (extractStep ev) ixs a s') as [[c s2] l2]
  end.
  simpl in *. by subst.
Qed.

Lemma extractLoop_items ixs acc s :
  Forall (fun r => hasText r = true) acc ->
  match outcome (foldM (extractStep ev) ixs acc s) with
  | Normal items => Forall (fun r => hasText r = true) items
  | Throw _ => True
  end.
Proof.
  revert acc s. induction ixs as [|ix ixs IH]; intros acc s Hacc; [done|].
  simpl. unfold bind at 1. rewrite extractStep_run.
  destruct (item (results ev) ix) as [r|]; [|done]. simpl.
  destruct (hasTop r); [|done].
  match goal with |- context [foldM _ ixs ?a ?s'] =>
    specialize (IH a s'); destruct (foldM (extractStep ev) ixs a s') as [[c s2] l2]
  end.
  simpl in *. apply IH.
  destruct (hasText r) eqn:Htext; [|done].
  apply Forall_app. split; [done|]. by apply Forall_singleton.
Qed.

(** When every visited index holds a result whose top alternative can be
    read, the loop returns, with exactly the visited results that have
    text, in order. *)
Lemma extractLoop_run ixs rs acc s :
  Forall2 (fun ix r => item (results ev) ix = Some r /\ hasTop r = true) ixs rs ->
  outcome (foldM (extractStep ev) ixs acc s) = Normal (acc ++ List.filter hasText rs).
Proof.
  intros H. revert acc s.
  induction H as [|ix r ixs rs [Hitem Htop] _ IH]; intros acc s; simpl.
  - by rewrite app_nil_r.
  - unfold bind at 1. rewrite extractStep_run, Hitem. simpl. rewrite Htop.
    match goal with |- context [foldM _ ixs ?a ?s'] =>
      specialize (IH a s'); destruct (foldM (extractStep ev) ixs a s') as [[c s2] l2]
    end.
    simpl in *. rewrite IH. destruct (hasText r); [|done].
    by rewrite <- app_assoc.
Qed.

(** The loop's indices against the slice of [results] it visits. *)
Lemma scan_indices s :
  0 <= scanStart s ev ->
  Forall2 (fun ix r => item (results ev) ix = Some r)
    (seqZ (scanStart s ev) (Z.of_nat (length (results ev)) - scanStart s ev))
    (scanned s ev).
Proof.
  intros Hstart. unfold scanned. set (b := scanStart s ev) in *.
  apply Forall2_same_length_lookup. split.
  - rewrite length_seqZ, length_drop. lia.
  - intros i ix r Hix Hr. apply lookup_seqZ in Hix as [-> Hi].
    rewrite lookup_drop in Hr. unfold item.
    destruct (b + Z.of_nat i <? 0) eqn:Hneg; [apply Z.ltb_lt in Hneg; lia|].
    by replace (Z.to_nat (b + Z.of_nat i)) with (Z.to_nat b + i)%nat by lia.
Qed.

(** The method around its loop. *)
Lemma extractUpdate_unfold s :
  _extractUpdate ev s =
  match foldM (extractStep ev)
          (seqZ (scanStart s ev) (Z.of_nat (length (results ev)) - scanStart s ev))
          [] s with
  | (Normal items, s1, l1) =>
      (Normal items, s1,
       l1 ++ if 0 <? Z.of_nat (length items)
             then [LogNewItems (length items) (resultIndex ev)] else [])
  | (Throw e, s1, l1) => (Throw e, s1, l1)
  end.
Proof.
  unfold _extractUpdate, bind, get, when, onLog, ret, scanStart. cbv zeta.
  destruct (foldM _ _ _ s) as [[[items|e] s1] l1]; [|done].
  destruct (0 <? Z.of_nat (length items)); simpl; by rewrite ?app_nil_r.
Qed.

Lemma extractUpdate_outcome s :
  0 <= scanStart s ev ->
  Forall (fun r => hasTop r = true) (scanned s ev) ->
  outcome (_extractUpdate ev s) = Normal (List.filter hasText (scanned s ev)).
Proof.
  intros Hstart Htop.
  assert (Hix : Forall2
    (fun ix r => item (results ev) ix = Some r /\ hasTop r = true)
    (seqZ (scanStart s ev) (Z.of_nat (length (results ev)) - scanStart s ev))
    (scanned s ev)).
  { pose proof (scan_indices s Hstart) as Hix. revert Htop.
    induction Hix as [|ix r ixs rs Hitem _ IH]; intros Htop; [constructor|].
    apply Forall_cons in Htop as [Hr Hrs]. constructor; [done | by apply IH]. }
  pose proof (extractLoop_run _ _ [] s Hix) as Hrun.
  rewrite extractUpdate_unfold.
  destruct (foldM _ _ _ s) as [[c s1] l1]. simpl in Hrun. by subst c.
Qed.

Lemma extractUpdate_items s :
  match outcome (_extractUpdate ev s) with
  | Normal items => Forall (fun r => hasText r = true) items
  | Throw _ => True
  end.
Proof.
  rewrite extractUpdate_unfold.
  match goal with |- context [foldM ?f ?ixs [] s] =>
    pose proof (extractLoop_items ixs [] s (Forall_nil_2 _)) as Hitems;
    destruct (foldM f ixs [] s) as [[[items|e] s1] l1]
  end; done.
Qed.

Lemma extractUpdate_logged s :
  logged (_extractUpdate ev s) =
  match outcome (_extractUpdate ev s) with
  | Normal ((_ :: _) as items) => [LogNewItems (length items) (resultIndex ev)]
  | _ => []
  end.
Proof.
  rewrite extractUpdate_unfold.
  match goal with |- context [foldM ?f ?ixs [] s] =>
    pose proof (extractLoop_logged ixs [] s) as Hlog;
    destruct (foldM f ixs [] s) as [[[items|e] s1] l1]
  end; simpl in Hlog; subst l1; [|done].
  destruct items; reflexivity.
Qed.

End Extraction.

(* ===================================================================== *)
(** ** _pushUpdate and update *)
(* ===================================================================== *)

Section Update.
Import SpeechLog.

Lemma hasText_hasTop r : hasText r = true -> hasTop r = true.
Proof. unfold hasText, hasTop, topTranscript. by destruct (top r). Qed.

Lemma getLastItem_last {A : Type} (array : list A) : getLastItem array = last array.
Proof.
  unfold getLastItem. destruct array as [|a array]; [done|].
  destruct (Z.ltb_spec (Z.of_nat (length (a :: array))) 1) as [Hlt|_]; [|done].
  simpl in Hlt. lia.
Qed.

Lemma Forall_removelast {A : Type} (P : A -> Prop) (l : list A) :
  Forall P l -> Forall P (removelast l).
Proof.
  induction 1 as [|x l Hx Hl IH]; simpl; [constructor|].
  destruct l; [constructor | by constructor].
Qed.

Lemma last_Forall {A : Type} (P : A -> Prop) (l : list A) (x : A) :
  Forall P l -> last l = Some x -> P x.
Proof.
  intros Hl Hlast. apply last_Some in Hlast as [l' ->].
  apply Forall_app in Hl as [_ Hx]. by inversion Hx.
Qed.

Lemma hasText_is_Some r : hasText r = true -> is_Some (topTranscript r).
Proof. unfold hasText. destruct (topTranscript r); [by eexists | done]. Qed.

(** A result whose transcript is a string, pushed onto a ledger whose
    newest current entry can be read, is stored without a throw. *)
Lemma pushUpdate_run r s :
  is_Some (topTranscript r) ->
  Forall (fun l => hasTop l = true) (currentResults s) ->
  _pushUpdate r s = (Normal tt, pushed r s, []).
Proof.
  intros [text Htext] Hcur. unfold _pushUpdate, pushed, absorbs.
  destruct (isFinal r); [|done].
  unfold bind at 1, get. unfold bind at 1. rewrite getLastItem_last.
  destruct (last (currentResults s)) as [l|] eqn:Hlast; [|done].
  pose proof (last_Forall _ _ _ Hcur Hlast) as Hl.
  unfold hasTop, topTranscript in *.
  destruct (top r) as [alt|] eqn:Htopr; [|done].
  destruct (top l) as [lalt|] eqn:Htopl; [|done].
  unfold bind, deref, ret, when, modify. rewrite Htext. simpl.
  by destruct (JsString.startsWith text (JsString.toString (transcript lalt))).
Qed.

(** [_pushUpdate] logs nothing, also when it throws. *)
Lemma pushUpdate_logged r s : logged (_pushUpdate r s) = [].
Proof.
  unfold _pushUpdate. destruct (isFinal r); [|done].
  unfold bind at 1, get. unfold bind at 1.
  destruct (getLastItem (currentResults s)) as [l|]; [|done].
  unfold bind, deref, ret, when, modify, throw.
  destruct (top r) as [alt|]; [|done].
  destruct (transcript alt) as [text|]; [|done].
  destruct (top l) as [lalt|]; [|done].
  by destruct (JsString.startsWith text (JsString.toString (transcript lalt))).
Qed.

Lemma forEach_push_logged items s : logged (forEach items _pushUpdate s) = [].
Proof.
  revert s. induction items as [|r items IH]; intros s; [done|].
  simpl. unfold bind. pose proof (pushUpdate_logged r s) as Hr.
  destruct (_pushUpdate r s) as [[[[]|e] s1] l1]; simpl in Hr; subst l1; [|done].
  specialize (IH s1). by destruct (forEach items _pushUpdate s1) as [[c s2] l2].
Qed.

Lemma pushed_stored r s :
  hasText r = true -> stored_with_text s -> stored_with_text (pushed r s).
Proof.
  intros Htext (Hwhole & Hcur & Hint). unfold pushed, stored_with_text.
  destruct (isFinal r); simpl; repeat split; try done.
  - apply Forall_app. split; [|by apply Forall_singleton].
    destruct (absorbs r (currentResults s)); [by apply Forall_removelast | done].
  - apply Forall_app. split; [done | by apply Forall_singleton].
Qed.

Lemma stored_hasTop s :
  stored_with_text s -> Forall (fun l => hasTop l = true) (currentResults s).
Proof.
  intros (_ & Hcur & _). eapply Forall_impl; [exact Hcur|].
  intros r. apply hasText_hasTop.
Qed.

Lemma forEach_push_run items s :
  Forall (fun r => hasText r = true) items ->
  stored_with_text s ->
  forEach items _pushUpdate s =
    (Normal tt, fold_left (fun s r => pushed r s) items s, [])
  /\ stored_with_text (fold_left (fun s r => pushed r s) items s).
Proof.
  intros Hitems. revert s.
  induction Hitems as [|r items Hr _ IH]; intros s Hs; [done|].
  simpl. unfold bind.
  rewrite pushUpdate_run by auto using stored_hasTop, hasText_is_Some.
  destruct (IH (pushed r s) (pushed_stored r s Hr Hs)) as [-> Hstored].
  done.
Qed.

(** [update] around [_extractUpdate] and the [forEach]. *)
Lemma update_unfold ev s :
  update ev s =
  match _extractUpdate ev s with
  | (Normal items, s1, l1) =>
      if Z.of_nat (length items) <? 1 then (Normal false, s1, warning s ev ++ l1)
      else
        match forEach items _pushUpdate (set_interimResults [] s1) with
        | (Normal _, s2, l2) => (Normal true, s2, warning s ev ++ l1 ++ l2)
        | (Throw e, s2, l2) => (Throw e, s2, warning s ev ++ l1 ++ l2)
        end
  | (Throw e, s1, l1) => (Throw e, s1, warning s ev ++ l1)
  end.
Proof.
  unfold update, warning. unfold bind at 1, get. unfold bind at 1.
  assert (Hwhen : forall b m, when b (onLog m) s
                  = (Normal tt, s, if b then [m] else [])) by by intros [] m.
  rewrite Hwhen. unfold bind at 1.
  destruct (_extractUpdate ev s) as [[[items|e] s1] l1]; [|done].
  destruct (Z.of_nat (length items) <? 1); [simpl; by rewrite app_nil_r|].
  unfold bind, modify, ret.
  destruct (forEach items _pushUpdate (set_interimResults [] s1)) as [[[[]|e] s2] l2];
    simpl; by rewrite ?app_nil_r.
Qed.

Lemma sameLists_stored s s' :
  sameOn lists s s' -> stored_with_text s -> stored_with_text s'.
Proof.
  unfold sameOn, lists, stored_with_text. intros [= Hm Hw Hc Hi].
  by rewrite Hw, Hc, Hi.
Qed.

(** Every stored result keeps a non-empty top transcript, whatever event
    arrives. *)
Lemma update_stored ev s :
  stored_with_text s -> stored_with_text (after (update ev s)).
Proof.
  intros Hs. rewrite update_unfold.
  pose proof (extractUpdate_items ev s) as Hitems.
  pose proof (extractUpdate_keeps_lists ev s) as Hsame.
  destruct (_extractUpdate ev s) as [[[items|e] s1] l1]; simpl in Hitems, Hsame.
  - pose proof (sameLists_stored _ _ Hsame Hs) as Hs1.
    destruct (Z.of_nat (length items) <? 1); [done|].
    assert (Hs1' : stored_with_text (set_interimResults [] s1)).
    { destruct Hs1 as (? & ? & ?). by repeat split. }
    destruct (forEach_push_run items _ Hitems Hs1') as [-> Hstored]. done.
  - by apply (sameLists_stored _ _ Hsame).
Qed.

(** On a ledger of readable results, an event whose visited results can
    all be read is processed to the end: [update] returns whether any of
    them had text. *)
Lemma update_outcome ev s :
  stored_with_text s ->
  0 <= scanStart s ev ->
  Forall (fun r => hasTop r = true) (scanned s ev) ->
  outcome (update ev s) =
    Normal (negb (Z.of_nat (length (List.filter hasText (scanned s ev))) <? 1)).
Proof.
  intros Hs Hstart Htop. rewrite update_unfold.
  pose proof (extractUpdate_outcome ev s Hstart Htop) as Hout.
  pose proof (extractUpdate_items ev s) as Hitems.
  pose proof (extractUpdate_keeps_lists ev s) as Hsame.
  destruct (_extractUpdate ev s) as [[c s1] l1]; simpl in Hout, Hitems, Hsame.
  subst c.
  destruct (Z.of_nat (length (List.filter hasText (scanned s ev))) <? 1); [done|].
  pose proof (sameLists_stored _ _ Hsame Hs) as Hs1.
  assert (Hs1' : stored_with_text (set_interimResults [] s1)).
  { destruct Hs1 as (? & ? & ?). by repeat split. }
  destruct (forEach_push_run _ _ Hitems Hs1') as [-> _]. done.
Qed.

(** An event whose last result is the only one visited, and has text. *)
Lemma update_one_result s ev r :
  last (results ev) = Some r ->
  resultIndex ev = Z.of_nat (length (results ev)) - 1 ->
  indexFinished s <= resultIndex ev ->
  hasText r = true ->
  Forall (fun l => hasTop l = true) (currentResults s) ->
  outcome (update ev s) = Normal true
  /\ currentResults (after (update ev s)) = currentResults (pushed r s).
Proof.
  intros Hlast Hix Hfin Hr Hcur.
  apply last_Some in Hlast as [pre Hpre].
  assert (Hlen : Z.of_nat (length (results ev)) = Z.of_nat (length pre) + 1).
  { rewrite Hpre, length_app. simpl. lia. }
  assert (Hstart : scanStart s ev = Z.of_nat (length pre))
    by (unfold scanStart; lia).
  assert (Hscan : scanned s ev = [r]).
  { unfold scanned. rewrite Hstart, Nat2Z.id, Hpre.
    by rewrite drop_app_length. }
  rewrite update_unfold.
  pose proof (extractUpdate_outcome ev s) as Hout.
  rewrite Hscan in Hout. simpl in Hout. rewrite Hr in Hout.
  specialize (Hout ltac:(lia) ltac:(repeat constructor; by apply hasText_hasTop)).
  pose proof (extractUpdate_keeps_lists ev s) as Hsame.
  destruct (_extractUpdate ev s) as [[c s1] l1].
  simpl in Hout, Hsame. subst c. simpl.
  injection Hsame as _ _ Hc _.
  unfold bind.
  rewrite pushUpdate_run;
    [|by apply hasText_is_Some|by simpl; rewrite Hc].
  simpl. split; [done|]. unfold pushed. simpl. rewrite Hc.
  by destruct (isFinal r).
Qed.

(** What [update] logs: the warning when it is due, then what
    [_extractUpdate] logs. *)
Lemma update_logged ev s :
  logged (update ev s) = warning s ev ++ logged (_extractUpdate ev s).
Proof.
  rewrite update_unfold.
  destruct (_extractUpdate ev s) as [[[items|e] s1] l1]; [|done].
  destruct (Z.of_nat (length items) <? 1); [done|].
  pose proof (forEach_push_logged items (set_interimResults [] s1)) as Hl.
  destruct (forEach items _pushUpdate (set_interimResults [] s1)) as [[[[]|e] s2] l2];
    simpl in *; subst l2; by rewrite app_nil_r.
Qed.

End Update.

(* ===================================================================== *)
(** ** The ledger over sequences of calls *)
(* ===================================================================== *)

Section LedgerCalls.
Import SpeechLog.

Lemma calls_snoc cs c s : calls (cs ++ [c]) s = call c (calls cs s).
Proof. unfold calls. by rewrite fold_left_app. Qed.

Lemma calls_app cs1 cs2 s : calls (cs1 ++ cs2) s = calls cs2 (calls cs1 s).
Proof. unfold calls. by rewrite fold_left_app. Qed.

Lemma hasText_spec r :
  hasText r = true <-> topTranscript r <> None /\ topTranscript r <> Some [].
Proof.
  unfold hasText. destruct (topTranscript r) as [text|].
  - rewrite length_pos. split.
    + intros H. split; [done | intros [= ->]; done].
    + intros [_ H] ->. done.
  - split; [done | intros [H _]; done].
Qed.

Lemma new_stored m : stored_with_text (set_maxCharacters m new).
Proof. repeat split; constructor. Qed.

Lemma call_stored c s : stored_with_text s -> stored_with_text (call c s).
Proof.
  intros Hs. destruct c as [|ev| |]; simpl.
  - rewrite init_run. destruct Hs as (Hwhole & Hcur & _). simpl.
    repeat split; simpl; [by apply Forall_app | constructor | constructor].
  - by apply update_stored.
  - by rewrite getCurrentSpeech_after.
  - by rewrite getWholeLog_after.
Qed.

Lemma calls_stored cs s : stored_with_text s -> stored_with_text (calls cs s).
Proof.
  revert s. induction cs as [|c cs IH]; intros s Hs; [done|].
  apply IH. by apply call_stored.
Qed.

Lemma updates_index_grow evs s :
  indexFinished s <= indexFinished (calls (Update <$> evs) s).
Proof.
  revert s. induction evs as [|ev evs IH]; intros s; simpl; [lia|].
  etransitivity; [apply (update_index_grows ev s) | apply IH].
Qed.

Lemma scanStart_nonneg s ev : 0 <= resultIndex ev -> 0 <= scanStart s ev.
Proof. unfold scanStart. lia. Qed.

Lemma blank_no_text rs :
  Forall (fun r => isBlank r = true) rs -> List.filter hasText rs = [].
Proof.
  induction 1 as [|r rs Hr _ IH]; [done|]. simpl.
  unfold isBlank in Hr. apply andb_true_iff in Hr as [_ Hr].
  apply negb_true_iff in Hr. by rewrite Hr.
Qed.

Lemma blank_hasTop rs :
  Forall (fun r => isBlank r = true) rs -> Forall (fun r => hasTop r = true) rs.
Proof.
  intros H. eapply Forall_impl; [exact H|].
  intros r Hr. unfold isBlank in Hr.
  by apply andb_true_iff in Hr as [Hr _].
Qed.

End LedgerCalls.

(* ===================================================================== *)
(** ** Properties of the ledger *)
(* ===================================================================== *)

(** C3, as written, fails: on a fresh ledger, an event whose only result is
    final with the empty transcript yields no updated item and [update]
    returns [false], yet [indexFinished] has moved from -1 to 0. *)
Lemma update_without_items_moves_index :
  let s := SpeechLog.new in
  let ev := mkEvent 0 [mkResult true [mkAlternative (Some [])]] in
  Forall (fun r => isBlank r = true) (scanned s ev)
  /\ SpeechLog.outcome (SpeechLog.update ev s) = SpeechLog.Normal false
  /\ SpeechLog.indexFinished s = -1
  /\ SpeechLog.indexFinished (SpeechLog.after (SpeechLog.update ev s)) = 0
  /\ SpeechLog.after (SpeechLog.update ev s) <> s.
Proof.
  simpl. repeat split; try reflexivity.
  - repeat constructor.
  - discriminate.
Qed.

(** C3, amended: when every result [update] visits has a top transcript
    that is [null] or empty (and [resultIndex] is not negative), [update]
    returns [false] and leaves [maxCharacters], [wholeLog],
    [currentResults] and [interimResults] as they were; [indexFinished]
    may have been raised and is never lowered. *)
Theorem update_without_items_keeps_lists (s : SpeechLog.t) (ev : SpeechRecognitionEvent) :
  0 <= resultIndex ev ->
  Forall (fun r => isBlank r = true) (scanned s ev) ->
  SpeechLog.outcome (SpeechLog.update ev s) = SpeechLog.Normal false
  /\ SpeechLog.wholeLog (SpeechLog.after (SpeechLog.update ev s)) = SpeechLog.wholeLog s
  /\ SpeechLog.currentResults (SpeechLog.after (SpeechLog.update ev s))
     = SpeechLog.currentResults s
  /\ SpeechLog.interimResults (SpeechLog.after (SpeechLog.update ev s))
     = SpeechLog.interimResults s
  /\ SpeechLog.maxCharacters (SpeechLog.after (SpeechLog.update ev s))
     = SpeechLog.maxCharacters s
  /\ SpeechLog.indexFinished s
     <= SpeechLog.indexFinished (SpeechLog.after (SpeechLog.update ev s)).
Proof.
  intros Hix Hblank.
  pose proof (update_index_grows ev s) as Hgrow.
  pose proof (extractUpdate_outcome ev s (scanStart_nonneg s ev Hix)
                (blank_hasTop _ Hblank)) as Hout.
  pose proof (extractUpdate_keeps_lists ev s) as Hsame.
  rewrite (blank_no_text _ Hblank) in Hout.
  rewrite update_unfold in *.
  destruct (SpeechLog._extractUpdate ev s) as [[c s1] l1].
  simpl in Hout, Hsame. subst c. simpl in *.
  unfold sameOn, lists in Hsame. injection Hsame as Hm Hw Hc Hi.
  by repeat split.
Qed.

Lemma update_without_items_keeps_lists_witness :
  let s := SpeechLog.mk 300 [final (JsString.lit "abc")] [final (JsString.lit "de")] [] 1 in
  let ev := mkEvent 0 [final (JsString.lit "de"); mkResult true [mkAlternative (Some [])];
                       mkResult false [mkAlternative None]] in
  SpeechLog.outcome (SpeechLog.update ev s) = SpeechLog.Normal false
  /\ SpeechLog.wholeLog (SpeechLog.after (SpeechLog.update ev s)) = SpeechLog.wholeLog s
  /\ SpeechLog.currentResults (SpeechLog.after (SpeechLog.update ev s))
     = SpeechLog.currentResults s
  /\ SpeechLog.interimResults (SpeechLog.after (SpeechLog.update ev s))
     = SpeechLog.interimResults s
  /\ SpeechLog.maxCharacters (SpeechLog.after (SpeechLog.update ev s))
     = SpeechLog.maxCharacters s
  /\ SpeechLog.indexFinished s
     <= SpeechLog.indexFinished (SpeechLog.after (SpeechLog.update ev s)).
Proof.
  intros s ev. apply (update_without_items_keeps_lists s ev).
  - simpl. lia.
  - vm_compute. repeat constructor.
Defined.

(** C4: [init()] returns normally from every ledger; it appends
    [currentResults], in order, to the end of [wholeLog], empties
    [currentResults] and [interimResults] and sets [indexFinished] to -1;
    with [currentResults] empty, [wholeLog] stays as it is; so after any
    sequence of updates, [init()] leaves the current results at the end of
    [wholeLog] and [indexFinished] at -1. *)
Theorem init_archives_current_results :
  (forall s,
     SpeechLog.init s =
       (SpeechLog.Normal tt,
        SpeechLog.mk (SpeechLog.maxCharacters s)
          (SpeechLog.wholeLog s ++ SpeechLog.currentResults s) [] [] (-1),
        []))
  /\ (forall s,
        SpeechLog.wholeLog
          (SpeechLog.after (SpeechLog.init (SpeechLog.set_currentResults [] s)))
        = SpeechLog.wholeLog s)
  /\ (forall s,
        SpeechLog.wholeLog
          (SpeechLog.after (SpeechLog.init (SpeechLog.after (SpeechLog.init s))))
        = SpeechLog.wholeLog (SpeechLog.after (SpeechLog.init s)))
  /\ (forall s evs,
        let s1 := calls (Update <$> evs) s in
        let s2 := calls ((Update <$> evs) ++ [Init]) s in
        SpeechLog.wholeLog s2 = SpeechLog.wholeLog s ++ SpeechLog.currentResults s1
        /\ SpeechLog.currentResults s2 = []
        /\ SpeechLog.interimResults s2 = []
        /\ SpeechLog.indexFinished s2 = -1).
Proof.
  split; [exact init_run|]. split; [|split].
  - intros s. rewrite init_run. simpl. by rewrite app_nil_r.
  - intros s. rewrite !init_run. simpl. by rewrite app_nil_r.
  - intros s evs s1 s2. subst s1 s2. rewrite calls_snoc. simpl.
    rewrite init_run. simpl. repeat split.
    f_equal. induction evs as [|ev evs IH] using rev_ind; [done|].
    rewrite fmap_app. change (Update <$> [ev]) with [Update ev].
    rewrite calls_snoc. simpl.
    by rewrite (update_keeps_wholeLog ev (calls (Update <$> evs) s)).
Qed.

(** C5: [update] never lowers [indexFinished], whatever the ledger and the
    event and whether it returns or throws; so along any sequence of
    updates the value after a longer prefix is at least the value after a
    shorter one. *)
Theorem indexFinished_never_decreases :
  (forall s ev,
     SpeechLog.indexFinished s
     <= SpeechLog.indexFinished (SpeechLog.after (SpeechLog.update ev s)))
  /\ (forall s evs more,
        SpeechLog.indexFinished (calls (Update <$> evs) s)
        <= SpeechLog.indexFinished (calls (Update <$> (evs ++ more)) s)).
Proof.
  split.
  - intros s ev. apply (update_index_grows ev s).
  - intros s evs more. rewrite fmap_app, calls_app. apply updates_index_grow.
Qed.

(** C7: whatever the ledger and the event, every result [_extractUpdate]
    returns has a top transcript that is neither [null] nor the empty
    string; and on a ledger made by [new SpeechLog()] and used through any
    sequence of [init()], [update()], [getCurrentSpeech()] and
    [getWholeLog()] calls, no entry of [currentResults] or [wholeLog] has a
    [null] or empty top transcript. *)
Theorem empty_results_are_filtered :
  (forall s ev,
     match SpeechLog.outcome (SpeechLog._extractUpdate ev s) with
     | SpeechLog.Normal items =>
         Forall (fun r => topTranscript r <> None /\ topTranscript r <> Some []) items
     | SpeechLog.Throw _ => True
     end)
  /\ (forall m cs,
        let s := calls cs (SpeechLog.set_maxCharacters m SpeechLog.new) in
        Forall (fun r => topTranscript r <> None /\ topTranscript r <> Some [])
          (SpeechLog.currentResults s)
        /\ Forall (fun r => topTranscript r <> None /\ topTranscript r <> Some [])
             (SpeechLog.wholeLog s)).
Proof.
  split.
  - intros s ev. pose proof (extractUpdate_items ev s) as H.
    destruct (SpeechLog.outcome (SpeechLog._extractUpdate ev s)); [|done].
    eapply Forall_impl; [exact H|]. intros r. apply hasText_spec.
  - intros m cs s.
    destruct (calls_stored cs _ (new_stored m)) as (Hwhole & Hcur & _).
    split; (eapply Forall_impl; [eassumption|]); intros r; apply hasText_spec.
Qed.

(** C10: [update] leaves [wholeLog] as it was, whatever the event and
    whether it returns or throws; [getCurrentSpeech()] and [getWholeLog()]
    leave the whole ledger as it was; [init()] keeps the old [wholeLog] as a
    prefix of the new one. *)
Theorem wholeLog_is_append_only :
  (forall s ev,
     SpeechLog.wholeLog (SpeechLog.after (SpeechLog.update ev s)) = SpeechLog.wholeLog s)
  /\ (forall s, SpeechLog.after (SpeechLog.getCurrentSpeech s) = s)
  /\ (forall s, SpeechLog.after (SpeechLog.getWholeLog s) = s)
  /\ (forall s,
        SpeechLog.wholeLog s `prefix_of`
          SpeechLog.wholeLog (SpeechLog.after (SpeechLog.init s)))
  /\ (forall s cs,
        SpeechLog.wholeLog s `prefix_of` SpeechLog.wholeLog (calls cs s)).
Proof.
  assert (Hcall : forall c s,
    SpeechLog.wholeLog s `prefix_of` SpeechLog.wholeLog (call c s)).
  { intros [|ev| |] s; simpl.
    - rewrite init_run. simpl. by apply prefix_app_r.
    - by rewrite (update_keeps_wholeLog ev s).
    - by rewrite getCurrentSpeech_after.
    - by rewrite getWholeLog_after. }
  repeat split.
  - intros s ev. apply (update_keeps_wholeLog ev s).
  - apply getCurrentSpeech_after.
  - apply getWholeLog_after.
  - intros s. apply (Hcall Init).
  - intros s cs. revert s. induction cs as [|c cs IH]; intros s; [done|].
    simpl. etransitivity; [apply (Hcall c) | apply IH].
Qed.

(* ===================================================================== *)
(** ** The queries *)
(* ===================================================================== *)

Section Queries.
Import SpeechLog.

(** A loop that reads the top transcript of each result. *)
Lemma foldM_top_run {B : Type} (g : B -> option jsstring -> B) rs acc s :
  Forall (fun r => hasTop r = true) rs ->
  foldM (fun b r => alt <- deref (top r) ;; ret (g b (transcript alt))) rs acc s
  = (Normal (fold_left (fun b r => g b (topTranscript r)) rs acc), s, []).
Proof.
  intros Hrs. revert acc.
  induction Hrs as [|r rs Hr _ IH]; intros acc; [done|].
  assert (Hstep : (alt <- deref (top r) ;; ret (g acc (transcript alt))) s
                  = (Normal (g acc (topTranscript r)), s, [])).
  { unfold hasTop, topTranscript in *. by destruct (top r). }
  simpl. unfold bind at 1. rewrite Hstep. by rewrite IH.
Qed.

Lemma fold_lines rs log :
  fold_left (fun log r =>
    log ++ [_addPunctuationIfNotExists (topTranscript r) ++ JsString.newline]) rs log
  = log ++ List.map lineOf rs.
Proof.
  revert log. induction rs as [|r rs IH]; intros log; simpl.
  - by rewrite app_nil_r.
  - rewrite IH. by rewrite <- app_assoc.
Qed.

Lemma logLines_run rs log s :
  Forall (fun r => hasTop r = true) rs ->
  foldM logLine rs log s = (Normal (log ++ List.map lineOf rs), s, []).
Proof.
  intros Hrs. unfold logLine.
  rewrite (foldM_top_run
    (fun log t => log ++ [_addPunctuationIfNotExists t ++ JsString.newline])
    _ _ _ Hrs).
  by rewrite fold_lines.
Qed.

Lemma getWholeLog_run s :
  Forall (fun r => hasTop r = true)
    (wholeLog s ++ currentResults s ++ interimResults s) ->
  getWholeLog s =
    (Normal (List.map lineOf (wholeLog s ++ currentResults s ++ interimResults s)),
     s, [LogWholeLog (length (wholeLog s))]).
Proof.
  intros H. apply Forall_app in H as [Hw H]. apply Forall_app in H as [Hc Hi].
  unfold getWholeLog, bind, get, onLog.
  rewrite (logLines_run _ _ _ Hw), (logLines_run _ _ _ Hc), (logLines_run _ _ _ Hi).
  simpl. by rewrite !List.map_app, <- !app_assoc.
Qed.

Lemma getCurrentSpeech_outcome s :
  Forall (fun r => hasTop r = true) (currentResults s ++ interimResults s) ->
  exists caption, outcome (getCurrentSpeech s) = Normal caption.
Proof.
  intros H. apply Forall_app in H as [Hc Hi].
  unfold getCurrentSpeech. unfold bind at 1, get. unfold bind at 1.
  rewrite (foldM_top_run (fun text t => text ++ _ t) _ _ _ Hc).
  rewrite (foldM_top_run (fun text t => text ++ _ t) _ _ _ Hi).
  by eexists.
Qed.

Lemma stored_all_hasTop s :
  stored_with_text s ->
  Forall (fun r => hasTop r = true)
    (wholeLog s ++ currentResults s ++ interimResults s).
Proof.
  intros (Hw & Hc & Hi). rewrite !Forall_app.
  repeat split; (eapply Forall_impl; [eassumption|]); apply hasText_hasTop.
Qed.

End Queries.

(** C8: on a ledger whose stored results each have a top alternative,
    [getWholeLog()] returns one string per entry of [wholeLog], then of
    [currentResults], then of [interimResults], in that order, each the
    entry's top transcript after [_addPunctuationIfNotExists] followed by a
    line feed; [_addPunctuationIfNotExists] leaves a string alone that ends
    in one of the eight marks, appends the ideographic full stop to any
    other non-empty string, and returns the empty string for the empty
    string and for [null]. *)
Theorem getWholeLog_lines (s : SpeechLog.t) :
  Forall (fun r => hasTop r = true)
    (SpeechLog.wholeLog s ++ SpeechLog.currentResults s ++ SpeechLog.interimResults s) ->
  SpeechLog.outcome (SpeechLog.getWholeLog s) =
    SpeechLog.Normal
      (List.map
         (fun r => SpeechLog._addPunctuationIfNotExists (topTranscript r) ++ [10%N])
         (SpeechLog.wholeLog s ++ SpeechLog.currentResults s ++ SpeechLog.interimResults s))
  /\ (forall body c,
        SpeechLog._addPunctuationIfNotExists (Some (body ++ [c])) =
        if bool_decide (c ∈ [12290; 12289; 65311; 65281; 46; 44; 63; 33]%N)
        then body ++ [c] else body ++ [c] ++ [12290%N])
  /\ SpeechLog._addPunctuationIfNotExists (Some []) = []
  /\ SpeechLog._addPunctuationIfNotExists None = [].
Proof.
  intros H. split; [by rewrite (getWholeLog_run s H)|].
  split; [exact addPunctuation_snoc | by split].
Qed.

Lemma getWholeLog_lines_witness :
  let s := SpeechLog.mk 300 [final (JsString.lit "A")] [final (JsString.lit "B")]
             [interim (JsString.lit "C")] 0 in
  SpeechLog.outcome (SpeechLog.getWholeLog s) =
    SpeechLog.Normal [ [65; 12290; 10]%N; [66; 12290; 10]%N; [67; 12290; 10]%N ].
Proof.
  intros s.
  assert (H : Forall (fun r => hasTop r = true)
    (SpeechLog.wholeLog s ++ SpeechLog.currentResults s ++ SpeechLog.interimResults s))
    by (vm_compute; repeat constructor).
  exact (eq_trans (proj1 (getWholeLog_lines s H)) eq_refl).
Defined.

(** C6: a final result [r] whose top transcript is the string [text],
    applied to a ledger whose current entries can be read, is stored
    without a throw and touches only [currentResults]: if the last current
    entry's transcript is a prefix of [text], that entry is replaced by [r]
    (same length, [r] last); if it is not, or there is no entry, [r] is
    appended. [update] applies exactly this to an event whose one visited
    result is [r] with a non-empty transcript. *)
Theorem final_result_replaces_its_prefix
    (s : SpeechLog.t) (r : SpeechRecognitionResult) (text : jsstring) :
  isFinal r = true ->
  topTranscript r = Some text ->
  Forall (fun l => hasTop l = true) (SpeechLog.currentResults s) ->
  let s' := SpeechLog.after (SpeechLog._pushUpdate r s) in
  SpeechLog.outcome (SpeechLog._pushUpdate r s) = SpeechLog.Normal tt
  /\ (forall older l ltext,
        SpeechLog.currentResults s = older ++ [l] ->
        topTranscript l = Some ltext ->
        ltext `prefix_of` text ->
        SpeechLog.currentResults s' = older ++ [r]
        /\ length (SpeechLog.currentResults s') = length (SpeechLog.currentResults s)
        /\ last (SpeechLog.currentResults s') = Some r)
  /\ (forall older l ltext,
        SpeechLog.currentResults s = older ++ [l] ->
        topTranscript l = Some ltext ->
        ~ ltext `prefix_of` text ->
        SpeechLog.currentResults s' = SpeechLog.currentResults s ++ [r])
  /\ (SpeechLog.currentResults s = [] -> SpeechLog.currentResults s' = [r])
  /\ SpeechLog.wholeLog s' = SpeechLog.wholeLog s
  /\ SpeechLog.interimResults s' = SpeechLog.interimResults s
  /\ SpeechLog.indexFinished s' = SpeechLog.indexFinished s
  /\ (forall ev,
        last (results ev) = Some r ->
        resultIndex ev = Z.of_nat (length (results ev)) - 1 ->
        SpeechLog.indexFinished s <= resultIndex ev ->
        text <> [] ->
        SpeechLog.outcome (SpeechLog.update ev s) = SpeechLog.Normal true
        /\ SpeechLog.currentResults (SpeechLog.after (SpeechLog.update ev s))
           = SpeechLog.currentResults s').
Proof.
  intros Hfinal Htext Hcur s'. subst s'.
  assert (Hr : text <> [] -> hasText r = true).
  { intros Hne. unfold hasText. rewrite Htext. by apply length_pos. }
  rewrite (pushUpdate_run r s) by (by rewrite ?Htext).
  unfold pushed, absorbs. rewrite Hfinal, Htext. simpl.
  repeat apply conj; try done.
  - intros older l ltext -> Hl Hpre. rewrite last_snoc, Hl. simpl.
    apply startsWith_prefix in Hpre. rewrite Hpre, removelast_last.
    rewrite !length_app, last_snoc. by repeat split.
  - intros older l ltext -> Hl Hpre. rewrite last_snoc, Hl. simpl.
    destruct (JsString.startsWith text ltext) eqn:Hstarts; [|done].
    by apply startsWith_prefix in Hstarts.
  - by intros ->.
  - intros ev Hlast Hix Hfin Hne.
    destruct (update_one_result s ev r Hlast Hix Hfin (Hr Hne) Hcur) as [Hout ->].
    split; [done|]. unfold pushed, absorbs. by rewrite Hfinal, Htext.
Qed.

Lemma final_result_replaces_its_prefix_witness :
  let konnichi : jsstring := [12371; 12435; 12395; 12385]%N in
  let konnichiwa : jsstring := [12371; 12435; 12395; 12385; 12399]%N in
  let s := SpeechLog.mk 300 [] [final konnichi] [] 0 in
  let ev := mkEvent 0 [final konnichiwa] in
  SpeechLog.outcome (SpeechLog.update ev s) = SpeechLog.Normal true
  /\ SpeechLog.currentResults (SpeechLog.after (SpeechLog.update ev s))
     = [final konnichiwa]
  /\ length (SpeechLog.currentResults (SpeechLog.after (SpeechLog.update ev s)))
     = length (SpeechLog.currentResults s).
Proof.
  intros konnichi konnichiwa s ev.
  assert (Hcur : Forall (fun l => hasTop l = true) (SpeechLog.currentResults s))
    by (repeat constructor).
  assert (Hpre : konnichi `prefix_of` konnichiwa) by (by exists [12399%N]).
  destruct (final_result_replaces_its_prefix s (final konnichiwa) konnichiwa
              eq_refl eq_refl Hcur) as (_ & Hreplace & _ & _ & _ & _ & _ & Hupdate).
  destruct (Hreplace [] (final konnichi) konnichi eq_refl eq_refl Hpre)
    as (Hc & Hlen & _).
  destruct (Hupdate ev eq_refl eq_refl ltac:(simpl; lia) ltac:(discriminate))
    as (Hout & Hafter).
  rewrite Hafter. split; [exact Hout | split; [exact Hc | exact Hlen]].
Defined.

(* ===================================================================== *)
(** ** When [update] throws *)
(* ===================================================================== *)

Section Unreadable.
Import SpeechLog.
Variable ev : SpeechRecognitionEvent.

Lemma readable_true s :
  readable s ev = true ->
  0 <= scanStart s ev /\ Forall (fun r => hasTop r = true) (scanned s ev).
Proof.
  unfold readable. intros H. apply andb_prop in H as [Hstart Htop].
  split; [by apply Z.leb_le|].
  induction (scanned s ev) as [|r rs IH]; [constructor|].
  simpl in Htop. apply andb_prop in Htop as [Hr Hrs].
  constructor; [done | by apply IH].
Qed.

Lemma readable_false s :
  readable s ev = false ->
  scanStart s ev < 0
  \/ (0 <= scanStart s ev /\ Exists (fun r => hasTop r = false) (scanned s ev)).
Proof.
  unfold readable. intros H.
  destruct (Z.leb_spec 0 (scanStart s ev)) as [Hstart|Hstart]; [right|by left].
  split; [done|]. simpl in H.
  induction (scanned s ev) as [|r rs IH]; [done|].
  simpl in H. destruct (hasTop r) eqn:Hr.
  - apply Exists_cons_tl. by apply IH.
  - by apply Exists_cons_hd.
Qed.

(** The loop throws at the first visited result without a top
    alternative. *)
Lemma extractLoop_throws ixs rs acc s :
  Forall2 (fun ix r => item (results ev) ix = Some r) ixs rs ->
  Exists (fun r => hasTop r = false) rs ->
  outcome (foldM (extractStep ev) ixs acc s) = Throw TypeError.
Proof.
  intros H. revert acc s.
  induction H as [|ix r ixs rs Hitem _ IH]; intros acc s Hex.
  - inversion Hex.
  - simpl. unfold bind at 1. rewrite extractStep_run, Hitem. simpl.
    destruct (hasTop r) eqn:Htop; [|done].
    apply Exists_cons in Hex as [Hr|Hex]; [congruence|].
    match goal with |- context [foldM _ ixs ?a ?s'] =>
      specialize (IH a s' Hex); destruct (foldM (extractStep ev) ixs a s') as [[c s2] l2]
    end.
    simpl in *. by subst c.
Qed.

(** A loop that starts below zero throws at its first turn. *)
Lemma extractLoop_throws_below_zero s :
  scanStart s ev < 0 ->
  foldM (extractStep ev)
    (seqZ (scanStart s ev) (Z.of_nat (length (results ev)) - scanStart s ev)) [] s
  = (Throw TypeError, s, []).
Proof.
  intros Hstart. rewrite seqZ_cons by lia. simpl. unfold bind at 1.
  rewrite extractStep_run. unfold item.
  destruct (scanStart s ev <? 0) eqn:Hneg; [done|].
  apply Z.ltb_ge in Hneg. lia.
Qed.

(** [update] on an event it cannot read: a [TypeError], after the warning
    when it is due, with nothing logged besides and no list changed. *)
Lemma update_unreadable s :
  readable s ev = false ->
  outcome (update ev s) = Throw TypeError
  /\ logged (update ev s) = warning s ev
  /\ lists (after (update ev s)) = lists s.
Proof.
  intros Hread.
  pose proof (extractUpdate_keeps_lists ev s) as Hkeep. unfold sameOn in Hkeep.
  pose proof (extractUpdate_logged ev s) as Hlog.
  assert (Hthrow : outcome (_extractUpdate ev s) = Throw TypeError).
  { rewrite extractUpdate_unfold.
    apply readable_false in Hread as [Hneg|[Hstart Hex]].
    - by rewrite (extractLoop_throws_below_zero s Hneg).
    - pose proof (extractLoop_throws _ _ [] s (scan_indices ev s Hstart) Hex) as H.
      destruct (foldM _ _ _ s) as [[c s1] l1]. simpl in H. by subst c. }
  rewrite update_unfold.
  destruct (_extractUpdate ev s) as [[c s1] l1]. simpl in *. subst c l1.
  by rewrite app_nil_r.
Qed.

End Unreadable.

(** C9, as written, fails: an event with a result that carries no
    alternative makes [update] throw a [TypeError] on a fresh ledger. *)
Lemma update_throws_without_alternative :
  let ev := mkEvent 0 [mkResult false []] in
  SpeechLog.outcome (SpeechLog.update ev SpeechLog.new)
    = SpeechLog.Throw SpeechLog.TypeError
  /\ ~ (exists changed,
          SpeechLog.outcome (SpeechLog.update ev SpeechLog.new)
            = SpeechLog.Normal changed).
Proof.
  simpl. split; [reflexivity|]. intros [changed H]. discriminate H.
Qed.

(** C9, amended: the statement is about events of the recognizer's data
    shape, which is the shape of [SpeechRecognitionEvent]: [resultIndex] an
    integer, [results] an array of results, [isFinal] a boolean, every
    alternative's [transcript] a string or [null]. On a ledger made by
    [new SpeechLog()] and used through any sequence of calls with such
    events, [init()], [getCurrentSpeech()] and [getWholeLog()] return
    normally, and [update] returns normally exactly when the event is
    [readable]: the first visited index, the larger of [indexFinished] and
    [resultIndex], is not negative, and every visited result has a top
    alternative (its transcript may be [null] or empty). On every other
    such event [update] throws a [TypeError] and leaves the three lists
    and the budget as they were. The warning is logged exactly when
    [indexFinished] is at least the event's [resultIndex], and the event is
    processed all the same: the rest of the log and the returned flag
    depend only on the visited results. *)
Theorem update_returns_exactly_on_readable_events
    (m : Z) (cs : list LedgerCall) (ev : SpeechRecognitionEvent) :
  let s := calls cs (SpeechLog.set_maxCharacters m SpeechLog.new) in
  SpeechLog.outcome (SpeechLog.update ev s)
    = (if readable s ev
       then SpeechLog.Normal
              (negb (Z.of_nat (length (List.filter hasText (scanned s ev))) <? 1))
       else SpeechLog.Throw SpeechLog.TypeError)
  /\ SpeechLog.logged (SpeechLog.update ev s)
     = (if SpeechLog.indexFinished s >=? resultIndex ev
        then [SpeechLog.LogWarning (resultIndex ev) (SpeechLog.indexFinished s)]
        else [])
       ++ (if readable s ev
           then match List.filter hasText (scanned s ev) with
                | [] => []
                | items => [SpeechLog.LogNewItems (length items) (resultIndex ev)]
                end
           else [])
  /\ (readable s ev = false ->
      lists (SpeechLog.after (SpeechLog.update ev s)) = lists s)
  /\ SpeechLog.outcome (SpeechLog.init s) = SpeechLog.Normal tt
  /\ (exists caption,
        SpeechLog.outcome (SpeechLog.getCurrentSpeech s) = SpeechLog.Normal caption)
  /\ (exists log,
        SpeechLog.outcome (SpeechLog.getWholeLog s) = SpeechLog.Normal log).
Proof.
  intros s.
  assert (Hs : stored_with_text s) by apply calls_stored, new_stored.
  split; [|split; [|split; [|split; [|split]]]].
  - destruct (readable s ev) eqn:Hread.
    + apply readable_true in Hread as [Hstart Htop]. by apply update_outcome.
    + by apply update_unreadable.
  - destruct (readable s ev) eqn:Hread.
    + apply readable_true in Hread as [Hstart Htop].
      rewrite update_logged, extractUpdate_logged.
      rewrite (extractUpdate_outcome ev s Hstart Htop). unfold warning.
      by destruct (List.filter hasText (scanned s ev)).
    + apply update_unreadable in Hread as (_ & Hlog & _).
      rewrite Hlog. unfold warning. by rewrite app_nil_r.
  - intros Hread. by apply update_unreadable.
  - by rewrite init_run.
  - apply getCurrentSpeech_outcome.
    pose proof (stored_all_hasTop s Hs) as H. by apply Forall_app in H as [_ H].
  - rewrite (getWholeLog_run s (stored_all_hasTop s Hs)). by eexists.
Qed.

Lemma update_returns_exactly_on_readable_events_witness :
  let cs := [Init; Update (mkEvent 0 [final (JsString.lit "abc")]);
             Update (mkEvent 0 [mkResult true []])] in
  let s := calls cs (SpeechLog.set_maxCharacters 300 SpeechLog.new) in
  let null_transcript := mkEvent 0 [final (JsString.lit "abc");
                                    final (JsString.lit "abcd");
                                    mkResult false [mkAlternative None]] in
  let unread_gap := mkEvent 1 [mkResult true []; final (JsString.lit "abc")] in
  let no_alternative := mkEvent 0 [final (JsString.lit "abc"); mkResult true []] in
  let below_zero := mkEvent (-1) [final (JsString.lit "abc")] in
  (SpeechLog.outcome (SpeechLog.update null_transcript s) = SpeechLog.Normal true
   /\ SpeechLog.logged (SpeechLog.update null_transcript s)
      = [SpeechLog.LogWarning 0 0; SpeechLog.LogNewItems 2 0])
  /\ SpeechLog.outcome (SpeechLog.update unread_gap s) = SpeechLog.Normal true
  /\ (SpeechLog.outcome (SpeechLog.update no_alternative s)
        = SpeechLog.Throw SpeechLog.TypeError
      /\ SpeechLog.logged (SpeechLog.update no_alternative s)
         = [SpeechLog.LogWarning 0 0]
      /\ lists (SpeechLog.after (SpeechLog.update no_alternative s)) = lists s)
  /\ (SpeechLog.outcome
        (SpeechLog.update below_zero (SpeechLog.set_maxCharacters 300 SpeechLog.new))
        = SpeechLog.Throw SpeechLog.TypeError
      /\ SpeechLog.logged
           (SpeechLog.update below_zero (SpeechLog.set_maxCharacters 300 SpeechLog.new))
         = [SpeechLog.LogWarning (-1) (-1)]).
Proof.
  intros cs s null_transcript unread_gap no_alternative below_zero.
  destruct (update_returns_exactly_on_readable_events 300 cs null_transcript)
    as (Hout1 & Hlog1 & _).
  destruct (update_returns_exactly_on_readable_events 300 cs unread_gap)
    as (Hout2 & _).
  destruct (update_returns_exactly_on_readable_events 300 cs no_alternative)
    as (Hout3 & Hlog3 & Hlists3 & _).
  destruct (update_returns_exactly_on_readable_events 300 [] below_zero)
    as (Hout4 & Hlog4 & _).
  split; [split; [exact Hout1 | exact Hlog1]|].
  split; [exact Hout2|].
  split; [split; [exact Hout3 | split; [exact Hlog3 | exact (Hlists3 eq_refl)]]|].
  split; [exact Hout4 | exact Hlog4].
Defined.

(* ===================================================================== *)
(** ** _trimCurrentResults *)
(* ===================================================================== *)

Section Trimming.
Import SpeechLog.

Lemma iter_shift {A : Type} (n : nat) (l : list A) : Nat.iter n shift l = drop n l.
Proof.
  induction n as [|n IH]; simpl; [done|].
  rewrite IH. unfold shift. change (tail (drop n l)) with (drop 1 (drop n l)).
  rewrite drop_drop. f_equal. lia.
Qed.

Lemma shift_drop {A : Type} (n : nat) (l : list A) : shift (drop n l) = drop (S n) l.
Proof. by rewrite <- !iter_shift. Qed.

Lemma totalLength_cons r rs text :
  topTranscript r = Some text ->
  totalLength (r :: rs) = JsString.length text + totalLength rs.
Proof. intros H. simpl. by rewrite H. Qed.

Lemma set_currentResults_same s : set_currentResults (drop 0 (currentResults s)) s = s.
Proof. by destruct s. Qed.

(** The outer loop keeps, in [sum], the length of the entries it has
    passed, and stops by cutting just in front of them. *)
Lemma trimLoop_run n sum s :
  Forall (fun r => is_Some (topTranscript r)) (currentResults s) ->
  (n <= length (currentResults s))%nat ->
  sum = totalLength (drop n (currentResults s)) ->
  sum <= maxCharacters s ->
  exists k,
    trimLoop n sum s = (Normal tt, set_currentResults (drop k (currentResults s)) s, [])
    /\ totalLength (drop k (currentResults s)) <= maxCharacters s.
Proof.
  intros Hcur. revert sum.
  induction n as [|ix IH]; intros sum Hn Hsum Hmax.
  - exists 0%nat. simpl. rewrite set_currentResults_same. split; [done|].
    rewrite Hsum in Hmax. by rewrite drop_0 in *.
  - destruct (lookup_lt_is_Some_2 (currentResults s) ix ltac:(lia)) as [r Hr].
    destruct (proj1 (Forall_lookup _ _) Hcur ix r Hr) as [text Htext].
    assert (Htop : exists alt, top r = Some alt /\ transcript alt = Some text).
    { unfold topTranscript in Htext. destruct (top r) as [alt|]; [by exists alt | done]. }
    destruct Htop as (alt & Halt & Htr).
    assert (Hdrop : totalLength (drop ix (currentResults s))
                    = JsString.length text + sum).
    { rewrite (drop_S _ _ _ Hr), (totalLength_cons _ _ _ Htext). by rewrite Hsum. }
    simpl. unfold bind at 1, get. unfold bind at 1. rewrite Hr. simpl.
    unfold bind at 1. rewrite Halt. simpl.
    unfold bind at 1. rewrite Htr. simpl.
    destruct (Z.gtb_spec (sum + JsString.length text) (maxCharacters s)) as [Hgt|Hle].
    + exists (S ix). unfold modify.
      rewrite iter_shift, shift_drop. split; [done|]. by rewrite <- Hsum.
    + destruct (IH (sum + JsString.length text)) as (k & Hk & Hbound);
        [lia | lia | lia |].
      exists k. by rewrite Hk.
Qed.

(** Had it been called: with a budget that is not negative, on current
    results whose transcripts are strings, [_trimCurrentResults()] removes
    entries from the front only and leaves a total length within the
    budget. *)
Lemma trimCurrentResults_run s :
  Forall (fun r => is_Some (topTranscript r)) (currentResults s) ->
  0 <= maxCharacters s ->
  exists k,
    _trimCurrentResults s
      = (Normal tt, set_currentResults (drop k (currentResults s)) s, [])
    /\ totalLength (drop k (currentResults s)) <= maxCharacters s.
Proof.
  intros Hcur Hmax. unfold _trimCurrentResults, bind, get.
  destruct (trimLoop_run (length (currentResults s)) 0 s Hcur) as (k & Hk & Hbound);
    [lia | by rewrite drop_all | lia |].
  exists k. by rewrite Hk.
Qed.

End Trimming.

(** C1, where the code departs from it: with [maxCharacters = 10], the
    three final results "abcde", "fghij", "klmno" arriving one event after
    the other leave all three in [currentResults], 15 characters in all,
    "abcde" among them; and with the constructor's budget of 300 a single
    final result of 301 characters stays in [currentResults]. [update] and
    [_pushUpdate] never call [_trimCurrentResults], which would have left
    "fghij", "klmno" in the first case and nothing in the second. *)
Theorem update_leaves_window_over_budget :
  (let abcde := final (JsString.lit "abcde") in
   let fghij := final (JsString.lit "fghij") in
   let klmno := final (JsString.lit "klmno") in
   let s0 := SpeechLog.set_maxCharacters 10 SpeechLog.new in
   let s3 := calls [Update (mkEvent 0 [abcde]);
                    Update (mkEvent 1 [abcde; fghij]);
                    Update (mkEvent 2 [abcde; fghij; klmno])] s0 in
   SpeechLog.currentResults s3 = [abcde; fghij; klmno]
   /\ totalLength (SpeechLog.currentResults s3) = 15
   /\ SpeechLog.maxCharacters s3 = 10
   /\ SpeechLog.currentResults (SpeechLog.after (SpeechLog._trimCurrentResults s3))
      = [fghij; klmno])
  /\ (let long := final (replicate 301 97%N) in
      let s1 := calls [Update (mkEvent 0 [long])] SpeechLog.new in
      SpeechLog.currentResults s1 = [long]
      /\ totalLength (SpeechLog.currentResults s1) = 301
      /\ SpeechLog.maxCharacters s1 = 300
      /\ SpeechLog.currentResults (SpeechLog.after (SpeechLog._trimCurrentResults s1))
         = []).
Proof. vm_compute. by repeat split. Qed.

(* ===================================================================== *)
(** ** The adapter once it is not available *)
(* ===================================================================== *)

Section Adapter.
Import SpeechRecognizer.
Variable window : Window.

Lemma onLedger_fields {A : Type} (m : SpeechLog.M A) st :
  let '(_, st', effs) := onLedger m st in
  recognizer st' = recognizer st
  /\ isSpeechAvailable st' = isSpeechAvailable st
  /\ available st' = available st
  /\ criticalCount effs = 0%nat
  /\ startCount effs = 0%nat.
Proof.
  unfold onLedger. destruct (m (speechLog st)) as [[c s'] logs]. simpl.
  repeat split; unfold criticalCount, startCount; by induction logs.
Qed.

Lemma count_app (f : Effect -> bool) (l1 l2 : list Effect) :
  length (List.filter f (l1 ++ l2))
  = (length (List.filter f l1) + length (List.filter f l2))%nat.
Proof. by rewrite List.filter_app, length_app. Qed.

(** [start()] on an adapter that is not available: [false], and nothing
    is started. *)
Lemma start_unavailable st :
  available st = false ->
  start st = (false, st, [Log "SpeechRecognizer.start() begins."]).
Proof. intros H. unfold start. by rewrite H. Qed.

Lemma start_fields st :
  let '(_, st', effs) := start st in
  recognizer st' = recognizer st
  /\ isSpeechAvailable st' = isSpeechAvailable st
  /\ available st' = available st
  /\ criticalCount effs = 0%nat.
Proof.
  unfold start.
  destruct (negb (available st) || _); [done|].
  pose proof (onLedger_fields SpeechLog.init st) as Hf.
  destruct (onLedger SpeechLog.init st) as [[c st'] effs].
  destruct Hf as (Hr & Hs & Ha & Hc & _). repeat split; try done.
  change (criticalCount ([Log "SpeechRecognizer.start() begins."] ++ effs ++ [RecognizerStart]) = 0%nat).
  unfold criticalCount in *. by rewrite !count_app, Hc.
Qed.

Lemma handle_fields e st :
  let '(st', effs) := handle e st in
  recognizer st' = recognizer st
  /\ (available st = false -> available st' = false /\ startCount effs = 0%nat).
Proof.
  destruct e; simpl; try (split; [done | by intros ->]).
  - pose proof (onLedger_fields SpeechLog.init st) as Hf.
    destruct (onLedger SpeechLog.init st) as [[c st1] effs1].
    destruct Hf as (Hr1 & _ & Ha1 & _ & Hs1).
    destruct (available st1) eqn:Hav.
    + pose proof (start_fields st1) as Hf2.
      destruct (start st1) as [[b st2] effs2].
      destruct Hf2 as (Hr2 & _ & Ha2 & _).
      split; [congruence|]. intros Hst. congruence.
    + split; [done|]. intros _. split; [done|].
      change (startCount ([Log "onend"] ++ effs1) = 0%nat).
      unfold startCount in *. by rewrite count_app, Hs1.
  - destruct (negb (isSpeechAvailable st) && _ && _); simpl; split; try done.
  - pose proof (onLedger_fields (SpeechLog.update ev) st) as Hf.
    destruct (onLedger (SpeechLog.update ev) st) as [[[[]|err] st1] effs1];
      destruct Hf as (Hr1 & _ & Ha1 & _ & Hs1).
    + pose proof (onLedger_fields SpeechLog.getCurrentSpeech st1) as Hf2.
      destruct (onLedger SpeechLog.getCurrentSpeech st1) as [[[caption|err] st2] effs2];
        destruct Hf2 as (Hr2 & _ & Ha2 & _ & Hs2);
        (split; [congruence|]); intros Hst; (split; [congruence|]);
        unfold startCount in *; by rewrite !count_app, Hs1, Hs2.
    + split; [done|]. intros Hst. split; [congruence | done].
    + split; [done|]. intros Hst. split; [congruence|].
      unfold startCount in *. by rewrite count_app, Hs1.
Qed.

Lemma init_fields st :
  let '(_, st', effs) := init window st in
  (recognizer st <> Undefined -> st' = st)
  /\ recognizer st' <> Undefined
  /\ (recognizer st' = Object -> isSpeechAvailable st' = isSpeechAvailable st)
  /\ criticalCount effs = 0%nat
  /\ startCount effs = 0%nat.
Proof.
  unfold init. destruct (recognizer st) eqn:Hr.
  - destruct window; simpl; by repeat split.
  - simpl. rewrite Hr. by repeat split.
  - simpl. rewrite Hr. by repeat split.
Qed.

(** One action on an adapter that [init()] has been through and that is
    not available: it stays so, and the recognizer is not started. *)
Lemma step_unavailable a st :
  recognizer st <> Undefined ->
  available st = false ->
  let '(st', effs) := step window a st in
  recognizer st' <> Undefined /\ available st' = false /\ startCount effs = 0%nat.
Proof.
  intros Hrec Hav. destruct a as [| |e]; simpl.
  - pose proof (init_fields st) as Hf.
    destruct (init window st) as [[b st'] effs].
    destruct Hf as (Hsame & _ & _ & _ & Hs). by rewrite (Hsame Hrec).
  - by rewrite (start_unavailable st Hav).
  - destruct (recognizer st) eqn:Hr; [done | by rewrite Hr |].
    pose proof (handle_fields e st) as Hf.
    destruct (handle e st) as [st' effs]. destruct Hf as (Hr' & Hun).
    destruct (Hun Hav) as (Hav' & Hs). by rewrite Hr', Hr.
Qed.

Lemma run_unavailable actions st :
  recognizer st <> Undefined ->
  available st = false ->
  let '(st', effs) := run window actions st in
  recognizer st' <> Undefined /\ available st' = false /\ startCount effs = 0%nat.
Proof.
  revert st. induction actions as [|a rest IH]; intros st Hrec Hav; [done|].
  simpl. pose proof (step_unavailable a st Hrec Hav) as H1.
  destruct (step window a st) as [st1 effs1]. destruct H1 as (Hrec1 & Hav1 & Hs1).
  specialize (IH st1 Hrec1 Hav1).
  destruct (run window rest st1) as [st2 effs2]. destruct IH as (Hrec2 & Hav2 & Hs2).
  repeat split; try done. unfold startCount in *. by rewrite count_app, Hs1, Hs2.
Qed.

(** An adapter made by the constructor is available until [init()] has
    run. *)
Lemma step_fresh_or_initialised a st :
  fresh_or_initialised st ->
  let '(st', _) := step window a st in fresh_or_initialised st'.
Proof.
  unfold fresh_or_initialised. intros Hst. destruct a as [| |e]; simpl.
  - pose proof (init_fields st) as Hf.
    destruct (init window st) as [[b st'] effs].
    destruct Hf as (_ & Hr & _). done.
  - pose proof (start_fields st) as Hf.
    destruct (start st) as [[b st'] effs].
    destruct Hf as (Hr & _ & Ha & _). by rewrite Hr, Ha.
  - destruct (recognizer st) eqn:Hr; [by rewrite Hr | by rewrite Hr |].
    pose proof (handle_fields e st) as Hf.
    destruct (handle e st) as [st' effs]. destruct Hf as (Hr' & _).
    rewrite Hr', Hr. done.
Qed.

Lemma run_fresh_or_initialised actions st :
  fresh_or_initialised st ->
  let '(st', _) := run window actions st in fresh_or_initialised st'.
Proof.
  revert st. induction actions as [|a rest IH]; intros st Hst; [done|].
  simpl. pose proof (step_fresh_or_initialised a st Hst) as H1.
  destruct (step window a st) as [st1 effs1]. specialize (IH st1 H1).
  by destruct (run window rest st1) as [st2 effs2].
Qed.

End Adapter.

(** C2, as written, fails: where [window] offers no recognizer, [init()]
    makes the adapter unavailable without any [onCritical] invocation, and
    none follows when the page goes on to call [start()]. *)
Lemma missing_recognizer_is_not_reported_critical :
  let '(st, effs) :=
    SpeechRecognizer.run SpeechRecognizer.WithoutRecognition
      [SpeechRecognizer.CallInit; SpeechRecognizer.CallStart]
      (SpeechRecognizer.new SpeechLog.new) in
  SpeechRecognizer.available st = false
  /\ SpeechRecognizer.criticalCount effs = 0%nat
  /\ SpeechRecognizer.criticalCount effs <> 1%nat.
Proof. simpl. by repeat split. Qed.

(** C2, amended: on an adapter made by the constructor and used through
    any sequence of calls and recognizer events,
    - [init()] where [window] offers no recognizer returns [false] and makes
      the adapter unavailable, without an [onCritical] invocation;
    - an [error] event that arrives while [isSpeechAvailable] is not set and
      whose code is neither 'no-speech' nor 'aborted' makes the adapter
      unavailable and invokes [onCritical] exactly once, with that code and
      message;
    - once the adapter is unavailable it remains so under every further
      sequence of calls and events, the recognizer object's [start()] is
      not invoked again, and [start()] returns [false]. *)
Theorem fatal_incapability_disables_for_good
    (window : SpeechRecognizer.Window) (log : SpeechLog.t)
    (before : list SpeechRecognizer.Action) :
  let st := (SpeechRecognizer.run window before (SpeechRecognizer.new log)).1 in
  (let '(ok, st', effs) :=
     SpeechRecognizer.init SpeechRecognizer.WithoutRecognition
       (SpeechRecognizer.new log) in
   ok = false /\ SpeechRecognizer.available st' = false
   /\ SpeechRecognizer.criticalCount effs = 0%nat)
  /\ (forall error message,
        SpeechRecognizer.recognizer st = SpeechRecognizer.Object ->
        SpeechRecognizer.isSpeechAvailable st = false ->
        error <> "no-speech" -> error <> "aborted" ->
        let '(st', effs) :=
          SpeechRecognizer.step window
            (SpeechRecognizer.Deliver (SpeechRecognizer.onerror error message)) st in
        SpeechRecognizer.available st' = false
        /\ List.filter SpeechRecognizer.isCritical effs
           = [SpeechRecognizer.Critical error message]
        /\ SpeechRecognizer.criticalCount effs = 1%nat
        /\ SpeechRecognizer.startCount effs = 0%nat)
  /\ (forall later,
        SpeechRecognizer.available st = false ->
        let '(st', effs) := SpeechRecognizer.run window later st in
        SpeechRecognizer.available st' = false
        /\ SpeechRecognizer.startCount effs = 0%nat
        /\ (SpeechRecognizer.start st').1.1 = false).
Proof.
  intros st. split; [done|]. split.
  - intros error message Hobj Hspeech Hno Hab. simpl. rewrite Hobj. simpl.
    rewrite Hspeech. apply String.eqb_neq in Hno, Hab. rewrite Hno, Hab. simpl.
    by repeat split.
  - intros later Hav.
    assert (Hrec : SpeechRecognizer.recognizer st <> SpeechRecognizer.Undefined).
    { pose proof (run_fresh_or_initialised window before (SpeechRecognizer.new log)) as Hf.
      subst st. destruct (SpeechRecognizer.run window before _) as [st0 effs0].
      simpl in *. intros Hundef. specialize (Hf ltac:(done) Hundef). congruence. }
    pose proof (run_unavailable window later st Hrec Hav) as Hrun.
    destruct (SpeechRecognizer.run window later st) as [st' effs].
    destruct Hrun as (_ & Hav' & Hs). repeat split; try done.
    by rewrite (start_unavailable st' Hav').
Qed.

Lemma fatal_incapability_disables_for_good_witness :
  let window := SpeechRecognizer.WithSpeechRecognition in
  let before := [SpeechRecognizer.CallInit; SpeechRecognizer.CallStart;
                 SpeechRecognizer.Deliver SpeechRecognizer.onstart;
                 SpeechRecognizer.Deliver SpeechRecognizer.onaudiostart;
                 SpeechRecognizer.Deliver (SpeechRecognizer.onerror "network" "")] in
  let later := [SpeechRecognizer.Deliver SpeechRecognizer.onaudioend;
                SpeechRecognizer.Deliver SpeechRecognizer.onend;
                SpeechRecognizer.CallStart; SpeechRecognizer.CallStart] in
  let st := (SpeechRecognizer.run window before
               (SpeechRecognizer.new SpeechLog.new)).1 in
  SpeechRecognizer.criticalCount
    (SpeechRecognizer.run window (before ++ later)
       (SpeechRecognizer.new SpeechLog.new)).2 = 1%nat
  /\ let '(st', effs) := SpeechRecognizer.run window later st in
     SpeechRecognizer.available st' = false
     /\ SpeechRecognizer.startCount effs = 0%nat
     /\ (SpeechRecognizer.start st').1.1 = false.
Proof.
  intros window before later st. split; [reflexivity|].
  exact (proj2 (proj2 (fatal_incapability_disables_for_good window SpeechLog.new before))
           later eq_refl).
Defined.

(** Each such [error] event invokes [onCritical] anew: the handler does not
    look at [available]. *)
Lemma second_fatal_error_is_reported_again :
  SpeechRecognizer.criticalCount
    (SpeechRecognizer.run SpeechRecognizer.WithSpeechRecognition
       [SpeechRecognizer.CallInit; SpeechRecognizer.CallStart;
        SpeechRecognizer.Deliver (SpeechRecognizer.onerror "network" "");
        SpeechRecognizer.Deliver (SpeechRecognizer.onerror "not-allowed" "")]
       (SpeechRecognizer.new SpeechLog.new)).2 = 2%nat.
Proof. reflexivity. Qed.


(* ===================================================================== *)
(** ** Further properties of the ledger *)
(* ===================================================================== *)

Global Instance olderKept_preorder : PreOrder olderKept.
Proof.
  split.
  - intros s. split; [|lia].
    destruct (SpeechLog.currentResults s) as [|r rs] using rev_ind; [done|].
    rewrite removelast_last. by apply prefix_app_r.
  - intros s1 s2 s3 [Hp12 Hl12] [Hp23 Hl23]. split; [|lia].
    etransitivity; [|exact Hp23].
    destruct (SpeechLog.currentResults s2) as [|r2 c2 _] using rev_ind.
    + assert (SpeechLog.currentResults s1 = []) as -> by (apply nil_length_inv; simpl in *; lia).
      done.
    + rewrite removelast_last.
      destruct (SpeechLog.currentResults s1) as [|r1 c1 _] using rev_ind;
        [apply prefix_nil|].
      rewrite removelast_last in *. rewrite !length_app in Hl12. simpl in Hl12.
      destruct Hp12 as [k Hk].
      destruct k as [|x k _] using rev_ind.
      * rewrite app_nil_r in Hk. subst c1. rewrite length_app in Hl12. simpl in Hl12. lia.
      * rewrite app_assoc in Hk. apply app_inj_tail in Hk as [-> _].
        by apply prefix_app_r.
Qed.

Section LedgerMore.
Import SpeechLog.

(** [_pushUpdate], whatever it is given and whether it throws, takes away
    at most the newest current entry, and only to put its argument there. *)
Lemma pushUpdate_olderKept r : keeps olderKept (_pushUpdate r).
Proof.
  intros s. unfold _pushUpdate.
  destruct (isFinal r).
  - unfold bind at 1, get. unfold bind at 1.
    destruct (getLastItem (currentResults s)) as [l|].
    + unfold bind, deref, ret, when, modify, throw.
      destruct (top r) as [alt|]; [|simpl; reflexivity].
      destruct (transcript alt) as [text|]; [|simpl; reflexivity].
      destruct (top l) as [lalt|]; [|simpl; reflexivity].
      destruct (JsString.startsWith text (JsString.toString (transcript lalt))); simpl.
      * split; simpl.
        -- destruct (currentResults s) as [|x c _] using rev_ind; [apply prefix_nil|].
           rewrite removelast_last. unfold pop. rewrite removelast_last.
           by apply prefix_app_r.
        -- destruct (currentResults s) as [|x c _] using rev_ind; [simpl; lia|].
           unfold pop. rewrite removelast_last, !length_app. simpl. lia.
      * split; simpl.
        -- etransitivity; [apply (reflexivity (R:=olderKept) s)|by apply prefix_app_r].
        -- rewrite length_app. lia.
    + simpl. split; simpl.
      * etransitivity; [apply (reflexivity (R:=olderKept) s)|by apply prefix_app_r].
      * rewrite length_app. lia.
  - simpl. apply (reflexivity (R:=olderKept) s).
Qed.

Lemma extractUpdate_olderKept ev : keeps olderKept (_extractUpdate ev).
Proof.
  intros s. pose proof (extractUpdate_keeps_lists ev s) as Hsame.
  unfold sameOn, lists in Hsame. injection Hsame as _ _ Hc _.
  unfold olderKept. rewrite Hc. apply (reflexivity (R:=olderKept) s).
Qed.

Lemma update_olderKept ev : keeps olderKept (update ev).
Proof.
  unfold update. frame;
    first [ apply extractUpdate_olderKept | apply pushUpdate_olderKept | idtac ].
  match goal with |- olderKept ?s _ => apply (reflexivity (R:=olderKept) s) end.
Qed.

End LedgerMore.

(** X7. Whatever the ledger and the event, and whether it returns or
    throws, [update] removes no current entry except possibly the newest
    one, and does not make the current entries fewer; so in particular it
    never removes entries from the front. The same holds along any sequence
    of updates. *)
Theorem update_keeps_older_current_entries :
  (forall s ev,
     removelast (SpeechLog.currentResults s)
       `prefix_of` SpeechLog.currentResults (SpeechLog.after (SpeechLog.update ev s))
     /\ (length (SpeechLog.currentResults s)
         <= length (SpeechLog.currentResults (SpeechLog.after (SpeechLog.update ev s))))%nat)
  /\ (forall s evs,
        removelast (SpeechLog.currentResults s)
          `prefix_of` SpeechLog.currentResults (calls (Update <$> evs) s)
        /\ (length (SpeechLog.currentResults s)
            <= length (SpeechLog.currentResults (calls (Update <$> evs) s)))%nat).
Proof.
  split.
  - intros s ev. apply (update_olderKept ev s).
  - intros s evs. revert s. induction evs as [|ev evs IH]; intros s.
    + apply (reflexivity (R:=olderKept) s).
    + simpl. apply (transitivity (R:=olderKept) (update_olderKept ev s)), IH.
Qed.

Global Instance carries_preorder (I : SpeechLog.t -> Prop) : PreOrder (carries I).
Proof. split; unfold carries; [intros s | intros s1 s2 s3]; tauto. Qed.

Section Finality.
Import SpeechLog.

Lemma pushUpdate_finals_apart r : keeps (carries finals_apart) (_pushUpdate r).
Proof.
  intros s (Hw & Hc & Hi). unfold _pushUpdate.
  destruct (isFinal r) eqn:Hr.
  - assert (Hpush : finals_apart (set_currentResults (currentResults s ++ [r]) s)).
    { repeat split; try done. simpl. apply Forall_app. split; [done|].
      by apply Forall_singleton. }
    assert (Hpop : finals_apart
      (set_currentResults (pop (currentResults s) ++ [r]) s)).
    { repeat split; try done. simpl. apply Forall_app.
      split; [by apply Forall_removelast | by apply Forall_singleton]. }
    unfold bind at 1, get. unfold bind at 1.
    destruct (getLastItem (currentResults s)) as [l|]; [|done].
    unfold bind, deref, ret, when, modify, throw.
    destruct (top r) as [alt|]; [|done].
    destruct (transcript alt) as [text|]; [|done].
    destruct (top l) as [lalt|]; [|done].
    by destruct (JsString.startsWith text (JsString.toString (transcript lalt))).
  - repeat split; try done. simpl. apply Forall_app. split; [done|].
    by apply Forall_singleton.
Qed.

Lemma update_finals_apart ev : keeps (carries finals_apart) (update ev).
Proof.
  unfold update. frame; first [ apply pushUpdate_finals_apart | idtac ].
  - intros s. pose proof (extractUpdate_keeps_lists ev s) as Hsame.
    unfold sameOn, lists in Hsame. injection Hsame as _ Hw Hc Hi.
    unfold carries, finals_apart. by rewrite Hw, Hc, Hi.
  - intros (Hw & Hc & _). by repeat split.
Qed.

Lemma call_finals_apart c s : finals_apart s -> finals_apart (call c s).
Proof.
  intros Hs. destruct c as [|ev| |]; simpl.
  - rewrite init_run. destruct Hs as (Hw & Hc & _).
    repeat split; simpl; [by apply Forall_app | constructor | constructor].
  - by apply (update_finals_apart ev s).
  - by rewrite getCurrentSpeech_after.
  - by rewrite getWholeLog_after.
Qed.

End Finality.

(** X5. On a ledger made by [new SpeechLog()] and used through any sequence
    of [init()], [update()], [getCurrentSpeech()] and [getWholeLog()] calls
    (also ones that throw), every entry of [wholeLog] and of
    [currentResults] is a final result and every entry of [interimResults]
    is not. *)
Theorem stores_separate_final_from_interim (m : Z) (cs : list LedgerCall) :
  let s := calls cs (SpeechLog.set_maxCharacters m SpeechLog.new) in
  Forall (fun r => isFinal r = true) (SpeechLog.wholeLog s)
  /\ Forall (fun r => isFinal r = true) (SpeechLog.currentResults s)
  /\ Forall (fun r => isFinal r = false) (SpeechLog.interimResults s).
Proof.
  intros s. subst s.
  assert (H : forall s0, finals_apart s0 -> finals_apart (calls cs s0)).
  { induction cs as [|c cs IH]; intros s0 Hs0; [done|].
    apply IH. by apply call_finals_apart. }
  apply H. repeat split; constructor.
Qed.

(** X3. [_addPunctuationIfNotExists] on a string: applying it to its own
    result changes nothing; the argument is a prefix of the result, which
    is at most one character longer; and the result ends in one of the
    eight marks, unless the argument was empty, when it is empty. *)
Theorem addPunctuation_is_idempotent (text : jsstring) :
  let out := SpeechLog._addPunctuationIfNotExists (Some text) in
  SpeechLog._addPunctuationIfNotExists (Some out) = out
  /\ text `prefix_of` out
  /\ (length out <= length text + 1)%nat
  /\ match last out with
     | Some c => isTerminal c = true
     | None => text = []
     end.
Proof.
  destruct text as [|c body _] using rev_ind.
  { cbv zeta.
    change (SpeechLog._addPunctuationIfNotExists (Some [])) with (@nil N).
    change (SpeechLog._addPunctuationIfNotExists (Some [])) with (@nil N).
    simpl. split; [done|]. split; [done|]. split; [lia|done]. }
  cbv zeta. rewrite addPunctuation_snoc.
  fold (isTerminal c). destruct (isTerminal c) eqn:Hc.
  - rewrite addPunctuation_snoc. fold (isTerminal c). rewrite Hc.
    repeat split; [done | lia | by rewrite last_snoc].
  - change (body ++ [c] ++ JsString.kuten) with (body ++ [c] ++ [12290%N]).
    rewrite (app_assoc body [c] [12290%N]).
    rewrite addPunctuation_snoc.
    repeat split.
    + by apply prefix_app_r.
    + rewrite !length_app. simpl. lia.
    + by rewrite last_snoc.
Qed.

Section CaptionAndExport.
Import SpeechLog.

Lemma fold_left_concat {A : Type} (f : A -> jsstring) (rs : list A) (acc : jsstring) :
  fold_left (fun text r => text ++ f r) rs acc = acc ++ concat (List.map f rs).
Proof.
  revert acc. induction rs as [|r rs IH]; intros acc; simpl.
  - by rewrite app_nil_r.
  - rewrite IH. by rewrite <- app_assoc.
Qed.

Lemma getCurrentSpeech_run s :
  Forall (fun r => hasTop r = true) (currentResults s ++ interimResults s) ->
  getCurrentSpeech s = (Normal (captionOf s), s, []).
Proof.
  intros H. apply Forall_app in H as [Hc Hi].
  unfold getCurrentSpeech, captionOf. unfold bind at 1, get. unfold bind at 1.
  rewrite (foldM_top_run (fun text t => text ++ _addPunctuationIfNotExists t) _ _ _ Hc).
  rewrite (foldM_top_run (fun text t => text ++ JsString.toString t) _ _ _ Hi).
  rewrite (fold_left_concat (fun r => _addPunctuationIfNotExists (topTranscript r))).
  rewrite (fold_left_concat (fun r => JsString.toString (topTranscript r))).
  done.
Qed.

End CaptionAndExport.

(** X4. On a ledger whose current and interim results each have a top
    alternative, [getCurrentSpeech()] returns normally, logs nothing and
    leaves the ledger alone; the caption is the current transcripts, each
    after [_addPunctuationIfNotExists], followed by the interim transcripts
    as they are, all in order and with nothing in between. *)
Theorem getCurrentSpeech_caption (s : SpeechLog.t) :
  Forall (fun r => hasTop r = true)
    (SpeechLog.currentResults s ++ SpeechLog.interimResults s) ->
  SpeechLog.getCurrentSpeech s =
    (SpeechLog.Normal
       (concat (List.map
                  (fun r => SpeechLog._addPunctuationIfNotExists (topTranscript r))
                  (SpeechLog.currentResults s))
        ++ concat (List.map (fun r => JsString.toString (topTranscript r))
                     (SpeechLog.interimResults s))),
     s, []).
Proof. apply getCurrentSpeech_run. Qed.

Lemma getCurrentSpeech_caption_witness :
  let s := SpeechLog.mk 300 [final (JsString.lit "A")]
             [final (JsString.lit "B!"); final [12371; 12435]%N]
             [interim (JsString.lit "C"); interim (JsString.lit "d")] 1 in
  SpeechLog.outcome (SpeechLog.getCurrentSpeech s)
  = SpeechLog.Normal [66; 33; 12371; 12435; 12290; 67; 100]%N.
Proof.
  intros s.
  assert (H : Forall (fun r => hasTop r = true)
                (SpeechLog.currentResults s ++ SpeechLog.interimResults s))
    by (repeat constructor).
  exact (f_equal SpeechLog.outcome (getCurrentSpeech_caption s H)).
Defined.

(** X9. [init()] and the two queries: on a ledger whose stored results each
    have a top alternative, after [init()] the caption is empty, and
    [getWholeLog()] returns the lines it returned before for [wholeLog] and
    [currentResults], in the same order; the lines of the interim results
    are no longer there. *)
Theorem init_keeps_final_lines_and_clears_caption (s : SpeechLog.t) :
  Forall (fun r => hasTop r = true)
    (SpeechLog.wholeLog s ++ SpeechLog.currentResults s ++ SpeechLog.interimResults s) ->
  let s' := SpeechLog.after (SpeechLog.init s) in
  SpeechLog.outcome (SpeechLog.getCurrentSpeech s') = SpeechLog.Normal []
  /\ exists lines,
       SpeechLog.outcome (SpeechLog.getWholeLog s') = SpeechLog.Normal lines
       /\ SpeechLog.outcome (SpeechLog.getWholeLog s)
          = SpeechLog.Normal (lines ++ List.map lineOf (SpeechLog.interimResults s))
       /\ length lines
          = (length (SpeechLog.wholeLog s) + length (SpeechLog.currentResults s))%nat.
Proof.
  intros H s'. subst s'. rewrite init_run. simpl.
  pose proof H as H'. apply Forall_app in H' as [Hw H']. apply Forall_app in H' as [Hc Hi].
  split; [done|].
  exists (List.map lineOf (SpeechLog.wholeLog s ++ SpeechLog.currentResults s)).
  rewrite (getWholeLog_run s H).
  rewrite getWholeLog_run by (simpl; rewrite !app_nil_r; by apply Forall_app).
  simpl. rewrite app_nil_r. split; [done|]. split.
  - by rewrite <- List.map_app, <- app_assoc.
  - by rewrite length_map, length_app.
Qed.

Lemma init_keeps_final_lines_and_clears_caption_witness :
  let s := SpeechLog.mk 300 [final (JsString.lit "A")] [final (JsString.lit "B")]
             [interim (JsString.lit "C")] 0 in
  SpeechLog.outcome (SpeechLog.getCurrentSpeech (SpeechLog.after (SpeechLog.init s)))
  = SpeechLog.Normal [].
Proof.
  intros s.
  exact (proj1 (init_keeps_final_lines_and_clears_caption s
                  ltac:(repeat constructor))).
Defined.

Section UpdateInDetail.
Import SpeechLog.

Lemma forEach_push_keeps_index items : keeps (sameOn indexFinished) (forEach items _pushUpdate).
Proof. unfold _pushUpdate. frame; by unfold sameOn. Qed.

(** [update] on a readable event and ledger, in one piece: what
    [_extractUpdate] leaves, with the interim entries dropped and the
    collected results pushed one by one. *)
Lemma update_after ev s :
  stored_with_text s ->
  0 <= scanStart s ev ->
  Forall (fun r => hasTop r = true) (scanned s ev) ->
  let items := List.filter hasText (scanned s ev) in
  let s1 := after (_extractUpdate ev s) in
  after (update ev s) =
    if Z.of_nat (length items) <? 1 then s1
    else fold_left (fun s r => pushed r s) items (set_interimResults [] s1).
Proof.
  intros Hs Hstart Htop items s1. subst items s1. rewrite update_unfold.
  pose proof (extractUpdate_outcome ev s Hstart Htop) as Hout.
  pose proof (extractUpdate_items ev s) as Hitems.
  pose proof (extractUpdate_keeps_lists ev s) as Hsame.
  destruct (_extractUpdate ev s) as [[c s1] l1]; simpl in Hout, Hitems, Hsame.
  subst c. simpl.
  destruct (Z.of_nat (length (List.filter hasText (scanned s ev))) <? 1); [done|].
  pose proof (sameLists_stored _ _ Hsame Hs) as Hs1.
  assert (Hs1' : stored_with_text (set_interimResults [] s1)).
  { destruct Hs1 as (? & ? & ?). by repeat split. }
  by destruct (forEach_push_run _ _ Hitems Hs1') as [-> _].
Qed.

Lemma pushes_interim items s :
  interimResults (fold_left (fun s r => pushed r s) items s)
  = interimResults s ++ List.filter (fun r => negb (isFinal r)) items.
Proof.
  revert s. induction items as [|r items IH]; intros s; simpl.
  - by rewrite app_nil_r.
  - rewrite IH. unfold pushed. destruct (isFinal r); simpl; [done|].
    by rewrite <- app_assoc.
Qed.

Lemma pushes_without_final items s :
  Forall (fun r => isFinal r = false) items ->
  currentResults (fold_left (fun s r => pushed r s) items s) = currentResults s.
Proof.
  intros H. revert s. induction H as [|r items Hr _ IH]; intros s; [done|].
  simpl. rewrite IH. unfold pushed. by rewrite Hr.
Qed.

End UpdateInDetail.

(** X8. On a ledger made by [new SpeechLog()] and used through any sequence
    of calls, for an event with a [resultIndex] that is not negative and
    visited results that each have a top alternative: if none of them has
    text, [interimResults] stays as it is; otherwise the earlier interim
    entries are all gone and [interimResults] is exactly the visited results
    with text that are not final, in order. If no visited result is final,
    [currentResults] stays as it is. *)
Theorem update_replaces_interim_results
    (m : Z) (cs : list LedgerCall) (ev : SpeechRecognitionEvent) :
  let s := calls cs (SpeechLog.set_maxCharacters m SpeechLog.new) in
  0 <= resultIndex ev ->
  Forall (fun r => hasTop r = true) (scanned s ev) ->
  SpeechLog.interimResults (SpeechLog.after (SpeechLog.update ev s))
  = match List.filter hasText (scanned s ev) with
    | [] => SpeechLog.interimResults s
    | items => List.filter (fun r => negb (isFinal r)) items
    end
  /\ (Forall (fun r => isFinal r = false) (scanned s ev) ->
      SpeechLog.currentResults (SpeechLog.after (SpeechLog.update ev s))
      = SpeechLog.currentResults s).
Proof.
  intros s Hix Htop.
  assert (Hs : stored_with_text s) by apply calls_stored, new_stored.
  pose proof (scanStart_nonneg s ev Hix) as Hstart.
  rewrite (update_after ev s Hs Hstart Htop).
  pose proof (extractUpdate_keeps_lists ev s) as Hsame.
  unfold sameOn, lists in Hsame. injection Hsame as _ _ Hc Hi.
  split.
  - destruct (List.filter hasText (scanned s ev)) as [|r items] eqn:Hitems; [done|].
    destruct (Z.ltb_spec (Z.of_nat (length (r :: items))) 1) as [Hlt|_];
      [simpl in Hlt; lia|].
    by rewrite pushes_interim.
  - intros Hnone.
    destruct (Z.of_nat (length (List.filter hasText (scanned s ev))) <? 1); [done|].
    rewrite pushes_without_final; [done|].
    apply List.Forall_forall. intros r Hr. apply List.filter_In in Hr as [Hr _].
    by apply (proj1 (List.Forall_forall _ _) Hnone).
Qed.

Lemma update_replaces_interim_results_witness :
  let cs := [Init; Update (mkEvent 0 [interim (JsString.lit "he");
                                      interim (JsString.lit "y")])] in
  let ev := mkEvent 0 [final (JsString.lit "hello"); interim (JsString.lit "wo")] in
  let s := calls cs (SpeechLog.set_maxCharacters 300 SpeechLog.new) in
  SpeechLog.interimResults s = [interim (JsString.lit "he"); interim (JsString.lit "y")]
  /\ SpeechLog.interimResults (SpeechLog.after (SpeechLog.update ev s))
     = [interim (JsString.lit "wo")].
Proof.
  intros cs ev s. split; [reflexivity|].
  exact (proj1 (update_replaces_interim_results 300 cs ev
                  ltac:(simpl; lia) ltac:(vm_compute; repeat constructor))).
Defined.

Section IndexInDetail.
Import SpeechLog.
Variable ev : SpeechRecognitionEvent.

Lemma extractLoop_cons ix ixs r acc s :
  item (results ev) ix = Some r ->
  hasTop r = true ->
  foldM (extractStep ev) (ix :: ixs) acc s
  = foldM (extractStep ev) ixs (if hasText r then acc ++ [r] else acc)
      (if isFinal r then set_indexFinished (Z.max ix (indexFinished s)) s else s).
Proof.
  intros Hitem Htop. simpl. unfold bind at 1.
  rewrite extractStep_run, Hitem. simpl. rewrite Htop.
  by destruct (foldM _ ixs _ _) as [[c s2] l2].
Qed.

Lemma extractLoop_index ixs rs acc s :
  Forall2 (fun ix r => item (results ev) ix = Some r /\ hasTop r = true) ixs rs ->
  indexFinished s <= indexFinished (after (foldM (extractStep ev) ixs acc s))
  /\ Forall (fun ix => finalAt ev ix ->
                       ix <= indexFinished (after (foldM (extractStep ev) ixs acc s))) ixs
  /\ (indexFinished (after (foldM (extractStep ev) ixs acc s)) = indexFinished s
      \/ (indexFinished (after (foldM (extractStep ev) ixs acc s)) ∈ ixs
          /\ finalAt ev (indexFinished (after (foldM (extractStep ev) ixs acc s))))).
Proof.
  intros H. revert acc s.
  induction H as [|ix r ixs rs [Hitem Htop] _ IH]; intros acc s.
  - simpl. split; [lia|]. split; [constructor | by left].
  - rewrite (extractLoop_cons ix ixs r acc s Hitem Htop).
    match goal with |- context [foldM _ ixs ?a ?s'] =>
      specialize (IH a s'); set (i' := indexFinished (after (foldM (extractStep ev) ixs a s'))) in *
    end.
    clearbody i'. destruct IH as (Hle & Hall & Hwhere).
    destruct (isFinal r) eqn:Hfinal; simpl in *.
    + split; [lia|]. split.
      * constructor; [intros _; lia | done].
      * destruct Hwhere as [Heq | [Hin Hfin]].
        -- destruct (Z.max_spec ix (indexFinished s)) as [[_ Hmax] | [_ Hmax]];
             rewrite Hmax in Heq.
           ++ by left.
           ++ right. rewrite Heq. split; [by left | by exists r].
        -- right. split; [by right | done].
    + split; [done|]. split.
      * constructor; [|done]. intros (r' & Hr' & Hf). congruence.
      * destruct Hwhere as [Heq | [Hin Hfin]]; [by left|].
        right. split; [by right | done].
Qed.

Lemma update_index_is_extract s :
  indexFinished (after (update ev s)) = indexFinished (after (_extractUpdate ev s)).
Proof.
  rewrite update_unfold.
  destruct (_extractUpdate ev s) as [[[items|e] s1] l1]; [|done].
  destruct (Z.of_nat (length items) <? 1); [done|].
  pose proof (forEach_push_keeps_index items (set_interimResults [] s1)) as Hk.
  unfold sameOn in Hk.
  by destruct (forEach items _pushUpdate (set_interimResults [] s1)) as [[[[]|e] s2] l2].
Qed.

End IndexInDetail.

Lemma update_index_bounds (s : SpeechLog.t) (ev : SpeechRecognitionEvent) :
  0 <= scanStart s ev ->
  Forall (fun r => hasTop r = true) (scanned s ev) ->
  (forall ix r,
     scanStart s ev <= ix -> item (results ev) ix = Some r -> isFinal r = true ->
     ix <= SpeechLog.indexFinished (SpeechLog.after (SpeechLog.update ev s)))
  /\ (SpeechLog.indexFinished (SpeechLog.after (SpeechLog.update ev s))
      = SpeechLog.indexFinished s
      \/ (scanStart s ev
          <= SpeechLog.indexFinished (SpeechLog.after (SpeechLog.update ev s))
          /\ finalAt ev
               (SpeechLog.indexFinished (SpeechLog.after (SpeechLog.update ev s))))).
Proof.
  intros Hstart Htop.
  rewrite update_index_is_extract, extractUpdate_unfold.
  assert (Hixs : Forall2
    (fun ix r => item (results ev) ix = Some r /\ hasTop r = true)
    (seqZ (scanStart s ev) (Z.of_nat (length (results ev)) - scanStart s ev))
    (scanned s ev)).
  { pose proof (scan_indices ev s Hstart) as Hi. revert Htop.
    induction Hi as [|ix r ixs rs Hitem _ IH]; intros Htop; [constructor|].
    apply Forall_cons in Htop as [Hr Hrs]. constructor; [done | by apply IH]. }
  pose proof (extractLoop_index ev _ _ [] s Hixs) as Hloop.
  destruct (SpeechLog.foldM _ _ _ s) as [[[items|e] s1] l1];
    simpl in Hloop; destruct Hloop as (Hle & Hall & Hwhere); simpl.
  all: split;
    [ intros ix r Hge Hitem Hfinal;
      assert (Hin : ix ∈ seqZ (scanStart s ev)
                      (Z.of_nat (length (results ev)) - scanStart s ev))
        by (apply elem_of_seqZ; split; [done|];
            unfold item in Hitem; destruct (ix <? 0) eqn:Hneg; [done|];
            apply lookup_lt_Some in Hitem; lia);
      apply (proj1 (Forall_forall _ _) Hall ix Hin); by exists r
    | destruct Hwhere as [Heq | [Hin Hfin]]; [by left|]; right;
      apply elem_of_seqZ in Hin; split; [lia | done] ].
Qed.

(** X6. For an event with a [resultIndex] that is not negative and visited
    results that each have a top alternative, [update] leaves
    [indexFinished] at least as high as the index of every final result it
    visited, and it has either kept the old value or moved to the index of a
    final result it visited: the new value is the larger of the old value
    and the highest visited final index. Final results with an empty
    transcript count. *)
Theorem indexFinished_is_highest_final_index
    (s : SpeechLog.t) (ev : SpeechRecognitionEvent) :
  0 <= resultIndex ev ->
  Forall (fun r => hasTop r = true) (scanned s ev) ->
  let start := Z.max (SpeechLog.indexFinished s) (resultIndex ev) in
  let i' := SpeechLog.indexFinished (SpeechLog.after (SpeechLog.update ev s)) in
  (forall ix r,
     start <= ix -> item (results ev) ix = Some r -> isFinal r = true -> ix <= i')
  /\ (i' = SpeechLog.indexFinished s
      \/ (start <= i'
          /\ exists r, item (results ev) i' = Some r /\ isFinal r = true)).
Proof.
  intros Hix Htop start i'. subst start i'.
  exact (update_index_bounds s ev (scanStart_nonneg s ev Hix) Htop).
Qed.

Lemma indexFinished_is_highest_final_index_witness :
  let s := SpeechLog.mk 300 [] [final (JsString.lit "a")] [] 0 in
  let ev := mkEvent 1 [final (JsString.lit "a"); final (JsString.lit "b");
                       mkResult true [mkAlternative (Some [])];
                       interim (JsString.lit "c")] in
  SpeechLog.indexFinished (SpeechLog.after (SpeechLog.update ev s)) = 2
  /\ 2 <= SpeechLog.indexFinished (SpeechLog.after (SpeechLog.update ev s)).
Proof.
  intros s ev. split; [reflexivity|].
  exact (proj1 (indexFinished_is_highest_final_index s ev
                  ltac:(simpl; lia) ltac:(vm_compute; repeat constructor))
           2 (mkResult true [mkAlternative (Some [])])
           ltac:(simpl; lia) eq_refl eq_refl).
Defined.

Section TrimmingInDetail.
Import SpeechLog.

Lemma totalLength_nonneg rs : 0 <= totalLength rs.
Proof.
  induction rs as [|r rs IH]; simpl; [lia|].
  unfold JsString.length. lia.
Qed.

Lemma totalLength_app rs1 rs2 :
  totalLength (rs1 ++ rs2) = totalLength rs1 + totalLength rs2.
Proof. induction rs1 as [|r rs1 IH]; simpl; lia. Qed.

(** A longer suffix is not shorter in characters. *)
Lemma totalLength_drop_le j k rs :
  (j <= k)%nat -> totalLength (drop k rs) <= totalLength (drop j rs).
Proof.
  intros Hjk. replace k with (j + (k - j))%nat by lia.
  rewrite <- drop_drop.
  rewrite <- (take_drop (k - j) (drop j rs)) at 2.
  rewrite totalLength_app.
  pose proof (totalLength_nonneg (take (k - j) (drop j rs))). lia.
Qed.

(** The outer loop again, now with where it cuts: at the first entry, from
    the newest backward, with which the sum exceeds the budget. *)
Lemma trimLoop_cut n sum s :
  Forall (fun r => is_Some (topTranscript r)) (currentResults s) ->
  (n <= length (currentResults s))%nat ->
  sum = totalLength (drop n (currentResults s)) ->
  sum <= maxCharacters s ->
  exists k,
    (k <= n)%nat
    /\ trimLoop n sum s = (Normal tt, set_currentResults (drop k (currentResults s)) s, [])
    /\ totalLength (drop k (currentResults s)) <= maxCharacters s
    /\ (k = 0%nat \/ maxCharacters s < totalLength (drop (k - 1) (currentResults s))).
Proof.
  intros Hcur. revert sum.
  induction n as [|ix IH]; intros sum Hn Hsum Hmax.
  - exists 0%nat. simpl. rewrite set_currentResults_same. split; [lia|].
    split; [done|]. split; [|by left].
    rewrite Hsum in Hmax. by rewrite drop_0 in *.
  - destruct (lookup_lt_is_Some_2 (currentResults s) ix ltac:(lia)) as [r Hr].
    destruct (proj1 (Forall_lookup _ _) Hcur ix r Hr) as [text Htext].
    assert (Htop : exists alt, top r = Some alt /\ transcript alt = Some text).
    { unfold topTranscript in Htext. destruct (top r) as [alt|]; [by exists alt | done]. }
    destruct Htop as (alt & Halt & Htr).
    assert (Hdrop : totalLength (drop ix (currentResults s))
                    = JsString.length text + sum).
    { rewrite (drop_S _ _ _ Hr), (totalLength_cons _ _ _ Htext). by rewrite Hsum. }
    simpl. unfold bind at 1, get. unfold bind at 1. rewrite Hr. simpl.
    unfold bind at 1. rewrite Halt. simpl.
    unfold bind at 1. rewrite Htr. simpl.
    destruct (Z.gtb_spec (sum + JsString.length text) (maxCharacters s)) as [Hgt|Hle].
    + exists (S ix). unfold modify.
      rewrite iter_shift, shift_drop. split; [lia|]. split; [done|].
      split; [by rewrite <- Hsum|]. right.
      replace (S ix - 1)%nat with ix by lia. lia.
    + destruct (IH (sum + JsString.length text)) as (k & Hk & Hrun & Hbound & Hcut);
        [lia | lia | lia |].
      exists k. rewrite Hrun. split; [lia|]. done.
Qed.

End TrimmingInDetail.

Lemma trimCurrentResults_cut (s : SpeechLog.t) :
  Forall (fun r => is_Some (topTranscript r)) (SpeechLog.currentResults s) ->
  0 <= SpeechLog.maxCharacters s ->
  exists k,
    SpeechLog._trimCurrentResults s
    = (SpeechLog.Normal tt,
       SpeechLog.set_currentResults (drop k (SpeechLog.currentResults s)) s, [])
    /\ totalLength (drop k (SpeechLog.currentResults s)) <= SpeechLog.maxCharacters s
    /\ forall j, (j < k)%nat ->
         SpeechLog.maxCharacters s < totalLength (drop j (SpeechLog.currentResults s)).
Proof.
  intros Hcur Hmax. unfold SpeechLog._trimCurrentResults, SpeechLog.bind, SpeechLog.get.
  destruct (trimLoop_cut (length (SpeechLog.currentResults s)) 0 s Hcur)
    as (k & Hk & Hrun & Hbound & Hcut); [lia | by rewrite drop_all | lia |].
  exists k. rewrite Hrun. split; [done|]. split; [done|].
  intros j Hj. destruct Hcut as [-> | Hcut]; [lia|].
  pose proof (totalLength_drop_le j (k - 1) (SpeechLog.currentResults s) ltac:(lia)).
  lia.
Qed.

(** X1. [_trimCurrentResults()], with a budget that is not negative and
    current results whose top transcripts are strings: it returns normally,
    logs nothing and touches only [currentResults]; what it leaves is the
    longest suffix of [currentResults] whose transcripts together have at
    most [maxCharacters] characters: entries go from the front only, the
    rest fits the budget, and any longer suffix would not. *)
Theorem trimCurrentResults_keeps_longest_fitting_suffix (s : SpeechLog.t) :
  Forall (fun r => is_Some (topTranscript r)) (SpeechLog.currentResults s) ->
  0 <= SpeechLog.maxCharacters s ->
  exists k,
    SpeechLog._trimCurrentResults s
    = (SpeechLog.Normal tt,
       SpeechLog.set_currentResults (drop k (SpeechLog.currentResults s)) s, [])
    /\ totalLength (drop k (SpeechLog.currentResults s)) <= SpeechLog.maxCharacters s
    /\ forall j, (j < k)%nat ->
         SpeechLog.maxCharacters s < totalLength (drop j (SpeechLog.currentResults s)).
Proof. apply trimCurrentResults_cut. Qed.

Lemma trimCurrentResults_keeps_longest_fitting_suffix_witness :
  let s := SpeechLog.mk 10 []
             [final (JsString.lit "abcde"); final (JsString.lit "fghij");
              final (JsString.lit "klmno")] [] 2 in
  exists k,
    SpeechLog._trimCurrentResults s
    = (SpeechLog.Normal tt,
       SpeechLog.set_currentResults (drop k (SpeechLog.currentResults s)) s, [])
    /\ totalLength (drop k (SpeechLog.currentResults s)) <= SpeechLog.maxCharacters s
    /\ forall j, (j < k)%nat ->
         SpeechLog.maxCharacters s < totalLength (drop j (SpeechLog.currentResults s)).
Proof.
  intros s.
  apply (trimCurrentResults_keeps_longest_fitting_suffix s).
  - repeat constructor; by eexists.
  - simpl. lia.
Defined.

(** X2. [_trimCurrentResults()] changes nothing when the current
    transcripts already fit the budget, and running it a second time
    changes nothing more. *)
Theorem trimCurrentResults_is_idempotent (s : SpeechLog.t) :
  Forall (fun r => is_Some (topTranscript r)) (SpeechLog.currentResults s) ->
  0 <= SpeechLog.maxCharacters s ->
  (totalLength (SpeechLog.currentResults s) <= SpeechLog.maxCharacters s ->
   SpeechLog.after (SpeechLog._trimCurrentResults s) = s)
  /\ SpeechLog.after
       (SpeechLog._trimCurrentResults (SpeechLog.after (SpeechLog._trimCurrentResults s)))
     = SpeechLog.after (SpeechLog._trimCurrentResults s).
Proof.
  intros Hcur Hmax.
  assert (Hfit : forall s0,
    Forall (fun r => is_Some (topTranscript r)) (SpeechLog.currentResults s0) ->
    0 <= SpeechLog.maxCharacters s0 ->
    totalLength (SpeechLog.currentResults s0) <= SpeechLog.maxCharacters s0 ->
    SpeechLog.after (SpeechLog._trimCurrentResults s0) = s0).
  { intros s0 Hcur0 Hmax0 Hfit.
    destruct (trimCurrentResults_cut s0 Hcur0 Hmax0)
      as (k & -> & _ & Hlong).
    destruct k as [|k]; [simpl; apply set_currentResults_same|].
    specialize (Hlong 0%nat ltac:(lia)). rewrite drop_0 in Hlong. lia. }
  split; [by apply Hfit|].
  destruct (trimCurrentResults_cut s Hcur Hmax)
    as (k & -> & Hbound & _).
  simpl. apply Hfit; simpl; [|done|done].
  apply Forall_drop. done.
Qed.

Lemma trimCurrentResults_is_idempotent_witness :
  let s := SpeechLog.mk 10 []
             [final (JsString.lit "abcde"); final (JsString.lit "fghij");
              final (JsString.lit "klmno")] [] 2 in
  SpeechLog.after
    (SpeechLog._trimCurrentResults (SpeechLog.after (SpeechLog._trimCurrentResults s)))
  = SpeechLog.after (SpeechLog._trimCurrentResults s).
Proof.
  intros s.
  exact (proj2 (trimCurrentResults_is_idempotent s
                  ltac:(repeat constructor; by eexists) ltac:(simpl; lia))).
Defined.

Section Resend.
Import SpeechLog.

Lemma last_final_split (l : list SpeechRecognitionResult) :
  Forall (fun r => isFinal r = false) l
  \/ exists pre rf post,
       l = pre ++ rf :: post /\ isFinal rf = true
       /\ Forall (fun r => isFinal r = false) post.
Proof.
  induction l as [|r l IH]; [left; constructor|].
  destruct IH as [Hnone | (pre & rf & post & -> & Hrf & Hpost)].
  - destruct (isFinal r) eqn:Hr.
    + right. by exists [], r, l.
    + left. by constructor.
  - right. by exists (r :: pre), rf, post.
Qed.

Lemma filter_keeps_Forall {A : Type} (P : A -> Prop) (f : A -> bool) (l : list A) :
  Forall P l -> Forall P (List.filter f l).
Proof.
  induction 1 as [|x l Hx _ IH]; simpl; [constructor|].
  destruct (f x); [by constructor | done].
Qed.

Lemma pushes_then_interim items1 items2 s :
  Forall (fun r => isFinal r = false) items2 ->
  currentResults (fold_left (fun s r => pushed r s) (items1 ++ items2) s)
  = currentResults (fold_left (fun s r => pushed r s) items1 s).
Proof. intros H. rewrite fold_left_app. by apply pushes_without_final. Qed.

(** Only interim results with text: the current entries stay. *)
Lemma update_current_without_final ev s :
  stored_with_text s ->
  0 <= scanStart s ev ->
  Forall (fun r => hasTop r = true) (scanned s ev) ->
  Forall (fun r => isFinal r = false) (List.filter hasText (scanned s ev)) ->
  currentResults (after (update ev s)) = currentResults s.
Proof.
  intros Hs Hstart Htop Hnone. rewrite (update_after ev s Hs Hstart Htop).
  pose proof (extractUpdate_keeps_lists ev s) as Hsame.
  unfold sameOn, lists in Hsame. injection Hsame as _ _ Hc _.
  destruct (Z.of_nat (length (List.filter hasText (scanned s ev))) <? 1); [done|].
  by rewrite pushes_without_final.
Qed.

(** The newest current entry, sent again as the first result with text and
    followed by interim results only: the current entries stay. *)
Lemma update_current_same_final ev s rf rest :
  stored_with_text s ->
  0 <= scanStart s ev ->
  Forall (fun r => hasTop r = true) (scanned s ev) ->
  List.filter hasText (scanned s ev) = rf :: rest ->
  isFinal rf = true ->
  Forall (fun r => isFinal r = false) rest ->
  last (currentResults s) = Some rf ->
  currentResults (after (update ev s)) = currentResults s.
Proof.
  intros Hs Hstart Htop Hitems Hrf Hrest Hlast.
  rewrite (update_after ev s Hs Hstart Htop), Hitems.
  pose proof (extractUpdate_keeps_lists ev s) as Hsame.
  unfold sameOn, lists in Hsame. injection Hsame as _ _ Hc _.
  destruct (Z.ltb_spec (Z.of_nat (length (rf :: rest))) 1) as [Hlt|_];
    [simpl in Hlt; lia|].
  change (rf :: rest) with ([rf] ++ rest). rewrite pushes_then_interim by done.
  simpl. unfold pushed, absorbs. rewrite Hrf. simpl. rewrite Hc, Hlast.
  assert (Hself : forall t, JsString.startsWith t t = true)
    by (intros t; by apply startsWith_prefix).
  rewrite Hself. apply last_Some in Hlast as [c ->]. by rewrite removelast_last.
Qed.

(** After [update], a final result with text that was the last final
    result visited is the newest current entry. *)
Lemma update_last_final ev s pre rf post :
  stored_with_text s ->
  0 <= scanStart s ev ->
  Forall (fun r => hasTop r = true) (scanned s ev) ->
  scanned s ev = pre ++ rf :: post ->
  isFinal rf = true -> hasText rf = true ->
  Forall (fun r => isFinal r = false) post ->
  last (currentResults (after (update ev s))) = Some rf.
Proof.
  intros Hs Hstart Htop Hscan Hrf Htext Hpost.
  rewrite (update_after ev s Hs Hstart Htop), Hscan.
  rewrite List.filter_app. simpl. rewrite Htext.
  destruct (Z.ltb_spec (Z.of_nat (length
              (List.filter hasText pre ++ rf :: List.filter hasText post))) 1) as [Hlt|_].
  { rewrite length_app in Hlt. simpl in Hlt. lia. }
  change (List.filter hasText pre ++ rf :: List.filter hasText post)
    with (List.filter hasText pre ++ [rf] ++ List.filter hasText post).
  rewrite app_assoc, pushes_then_interim by (by apply filter_keeps_Forall).
  rewrite fold_left_app. simpl. unfold pushed at 1. rewrite Hrf. simpl.
  by rewrite last_snoc.
Qed.

(** Where the next scan of the same event starts, and what it visits. *)
Lemma rescan ev s pre rf post :
  0 <= scanStart s ev ->
  Forall (fun r => hasTop r = true) (scanned s ev) ->
  scanned s ev = pre ++ rf :: post ->
  isFinal rf = true ->
  Forall (fun r => isFinal r = false) post ->
  scanned (after (update ev s)) ev = rf :: post
  /\ 0 <= scanStart (after (update ev s)) ev.
Proof.
  intros Hstart Htop Hscan Hrf Hpost.
  destruct (update_index_bounds s ev Hstart Htop) as [Hge Hwhere].
  set (b := scanStart s ev) in *.
  set (f := indexFinished (after (update ev s))) in *.
  assert (Hb : indexFinished s <= b /\ resultIndex ev <= b) by (unfold b, scanStart; lia).
  assert (Hat : forall q r, (drop (Z.to_nat b) (results ev)) !! q = Some r ->
                  item (results ev) (b + Z.of_nat q) = Some r).
  { intros q r Hq. rewrite lookup_drop in Hq. unfold item.
    destruct (b + Z.of_nat q <? 0) eqn:Hneg; [apply Z.ltb_lt in Hneg; lia|].
    by replace (Z.to_nat (b + Z.of_nat q)) with (Z.to_nat b + q)%nat by lia. }
  unfold scanned in Hscan. fold b in Hscan.
  assert (Hlow : b + Z.of_nat (length pre) <= f).
  { apply (Hge _ rf); [lia | | done]. apply Hat. rewrite Hscan.
    by rewrite list_lookup_middle. }
  assert (Hhigh : f <= b + Z.of_nat (length pre)).
  { destruct Hwhere as [Heq | [Hbf (r & Hitem & Hfinal)]]; [lia|].
    destruct (Z.le_gt_cases f (b + Z.of_nat (length pre))) as [|Hgt]; [done|].
    exfalso. unfold item in Hitem.
    destruct (f <? 0) eqn:Hneg; [done|].
    replace (Z.to_nat f)
      with (Z.to_nat b + (length pre + S (Z.to_nat (f - b) - S (length pre))))%nat
      in Hitem by lia.
    rewrite <- lookup_drop, Hscan in Hitem.
    rewrite lookup_app_r in Hitem by lia.
    replace (length pre + S (Z.to_nat (f - b) - S (length pre)) - length pre)%nat
      with (S (Z.to_nat (f - b) - S (length pre))) in Hitem by lia.
    simpl in Hitem.
    pose proof (proj1 (Forall_lookup _ _) Hpost _ _ Hitem) as Hnot. simpl in Hnot.
    congruence. }
  assert (Hstart2 : scanStart (after (update ev s)) ev = b + Z.of_nat (length pre))
    by (unfold scanStart; fold f; lia).
  split; [|lia].
  unfold scanned. rewrite Hstart2.
  replace (Z.to_nat (b + Z.of_nat (length pre))) with (Z.to_nat b + length pre)%nat by lia.
  rewrite <- drop_drop, Hscan. by rewrite drop_app_length.
Qed.

Lemma rescan_without_final ev s :
  0 <= scanStart s ev ->
  Forall (fun r => hasTop r = true) (scanned s ev) ->
  Forall (fun r => isFinal r = false) (scanned s ev) ->
  scanned (after (update ev s)) ev = scanned s ev
  /\ scanStart (after (update ev s)) ev = scanStart s ev.
Proof.
  intros Hstart Htop Hnone.
  destruct (update_index_bounds s ev Hstart Htop) as [_ Hwhere].
  assert (Heq : indexFinished (after (update ev s)) = indexFinished s).
  { destruct Hwhere as [Heq | [Hbf (r & Hitem & Hfinal)]]; [done|]. exfalso.
    set (f := indexFinished (after (update ev s))) in *.
    unfold item in Hitem. destruct (f <? 0) eqn:Hneg; [done|].
    replace (Z.to_nat f)
      with (Z.to_nat (scanStart s ev) + Z.to_nat (f - scanStart s ev))%nat
      in Hitem by lia.
    rewrite <- lookup_drop in Hitem. fold (scanned s ev) in Hitem.
    pose proof (proj1 (Forall_lookup _ _) Hnone _ _ Hitem) as Hnot. simpl in Hnot.
    congruence. }
  unfold scanned, scanStart. by rewrite Heq.
Qed.

End Resend.

(** X10. A resent event adds nothing to the current results: on a ledger
    made by [new SpeechLog()] and used through any sequence of calls, for an
    event with a [resultIndex] that is not negative and visited results that
    each have a top alternative, [update] with the same event a second time
    returns normally and leaves [currentResults] and [wholeLog] exactly as
    the first [update] left them. *)
Theorem resent_event_is_not_duplicated
    (m : Z) (cs : list LedgerCall) (ev : SpeechRecognitionEvent) :
  let s := calls cs (SpeechLog.set_maxCharacters m SpeechLog.new) in
  0 <= resultIndex ev ->
  Forall (fun r => hasTop r = true) (scanned s ev) ->
  let s1 := SpeechLog.after (SpeechLog.update ev s) in
  (exists changed, SpeechLog.outcome (SpeechLog.update ev s1) = SpeechLog.Normal changed)
  /\ SpeechLog.currentResults (SpeechLog.after (SpeechLog.update ev s1))
     = SpeechLog.currentResults s1
  /\ SpeechLog.wholeLog (SpeechLog.after (SpeechLog.update ev s1))
     = SpeechLog.wholeLog s1.
Proof.
  intros s Hix Htop s1.
  assert (Hs : stored_with_text s) by apply calls_stored, new_stored.
  assert (Hs1 : stored_with_text s1) by by apply update_stored.
  pose proof (scanStart_nonneg s ev Hix) as Hstart.
  pose proof (scanStart_nonneg s1 ev Hix) as Hstart1.
  assert (Hboth :
    Forall (fun r => hasTop r = true) (scanned s1 ev)
    /\ SpeechLog.currentResults (SpeechLog.after (SpeechLog.update ev s1))
       = SpeechLog.currentResults s1).
  { destruct (last_final_split (scanned s ev))
      as [Hnone | (pre & rf & post & Hscan & Hrf & Hpost)].
    - destruct (rescan_without_final ev s Hstart Htop Hnone) as [Hscan1 _].
      fold s1 in Hscan1. split; [by rewrite Hscan1|].
      apply update_current_without_final; try done; rewrite Hscan1; [done|].
      by apply filter_keeps_Forall.
    - destruct (rescan ev s pre rf post Hstart Htop Hscan Hrf Hpost) as [Hscan1 _].
      fold s1 in Hscan1.
      assert (Htop1 : Forall (fun r => hasTop r = true) (scanned s1 ev)).
      { rewrite Hscan1. rewrite Hscan in Htop. by apply Forall_app in Htop as [_ Htop]. }
      split; [done|].
      destruct (hasText rf) eqn:Htext.
      + apply (update_current_same_final ev s1 rf (List.filter hasText post));
          try done.
        * rewrite Hscan1. simpl. by rewrite Htext.
        * by apply filter_keeps_Forall.
        * by apply (update_last_final ev s pre rf post).
      + apply update_current_without_final; try done.
        rewrite Hscan1. simpl. rewrite Htext. by apply filter_keeps_Forall. }
  destruct Hboth as [Htop1 Hcur]. split; [|split; [done|]].
  - eexists. by apply update_outcome.
  - apply (update_keeps_wholeLog ev s1).
Qed.

Lemma resent_event_is_not_duplicated_witness :
  let cs := [Init; Update (mkEvent 0 [final (JsString.lit "good")])] in
  let ev := mkEvent 0 [final (JsString.lit "good"); final (JsString.lit "morning");
                       interim (JsString.lit "ev")] in
  let s := calls cs (SpeechLog.set_maxCharacters 300 SpeechLog.new) in
  let s1 := SpeechLog.after (SpeechLog.update ev s) in
  SpeechLog.currentResults s1
    = [final (JsString.lit "good"); final (JsString.lit "morning")]
  /\ SpeechLog.currentResults (SpeechLog.after (SpeechLog.update ev s1))
     = SpeechLog.currentResults s1.
Proof.
  intros cs ev s s1. split; [reflexivity|].
  exact (proj1 (proj2 (resent_event_is_not_duplicated 300 cs ev
                         ltac:(simpl; lia) ltac:(vm_compute; repeat constructor)))).
Defined.


(* ===================================================================== *)
(** ** Further properties of the adapter *)
(* ===================================================================== *)

Section AdapterMore.
Import SpeechRecognizer.
Variable window : Window.

Lemma ledger_logs_filtered (f : Effect -> bool) (logs : list SpeechLog.LogMessage) :
  (forall m, f (LedgerLog m) = false) ->
  List.filter f (List.map LedgerLog logs) = [].
Proof. intros Hf. induction logs as [|m logs IH]; simpl; [done|]. by rewrite Hf. Qed.

(** [this.speechLog.init()] inside the adapter. *)
Lemma onLedger_init st :
  onLedger SpeechLog.init st
  = (SpeechLog.Normal tt,
     set_speechLog (SpeechLog.after (SpeechLog.init (speechLog st))) st, []).
Proof. unfold onLedger. by rewrite init_run. Qed.

Lemma init_twice s :
  SpeechLog.after (SpeechLog.init (SpeechLog.after (SpeechLog.init s)))
  = SpeechLog.after (SpeechLog.init s).
Proof. rewrite !init_run. simpl. by rewrite app_nil_r. Qed.

(** [start()] when it goes ahead. *)
Lemma start_run st :
  available st = true -> recognizer st = Object ->
  start st
  = (true, set_speechLog (SpeechLog.after (SpeechLog.init (speechLog st))) st,
     [Log "SpeechRecognizer.start() begins."; RecognizerStart]).
Proof. intros Ha Hr. unfold start. rewrite Ha, Hr, onLedger_init. done. Qed.

(** The [end] handler. *)
Lemma onend_run st :
  handle onend st
  = (set_speechLog (SpeechLog.after (SpeechLog.init (speechLog st))) st,
     if available st && match recognizer st with Object => true | _ => false end
     then [Log "onend"; Log "SpeechRecognizer.start() begins."; RecognizerStart]
     else if available st then [Log "onend"; Log "SpeechRecognizer.start() begins."]
     else [Log "onend"]).
Proof.
  simpl. rewrite onLedger_init. simpl.
  destruct (available st) eqn:Ha; [|done].
  destruct (recognizer st) eqn:Hr.
  - unfold start. simpl. by rewrite Ha, Hr.
  - unfold start. simpl. by rewrite Ha, Hr.
  - rewrite start_run by done. simpl. unfold set_speechLog. simpl.
    by rewrite init_twice.
Qed.

(** The [result] handler, by what [update] and [getCurrentSpeech] do. *)
Lemma onresult_run ev st :
  handle (onresult ev) st
  = match SpeechLog.update ev (speechLog st) with
    | (SpeechLog.Normal true, s1, logs) =>
        match SpeechLog.getCurrentSpeech s1 with
        | (SpeechLog.Normal caption, s2, logs2) =>
            (set_speechLog s2 st,
             List.map LedgerLog logs ++ List.map LedgerLog logs2 ++ [Updated caption])
        | (SpeechLog.Throw err, s2, logs2) =>
            (set_speechLog s2 st,
             List.map LedgerLog logs ++ List.map LedgerLog logs2 ++ [Uncaught err])
        end
    | (SpeechLog.Normal false, s1, logs) => (set_speechLog s1 st, List.map LedgerLog logs)
    | (SpeechLog.Throw err, s1, logs) =>
        (set_speechLog s1 st, List.map LedgerLog logs ++ [Uncaught err])
    end.
Proof.
  simpl. unfold onLedger.
  destruct (SpeechLog.update ev (speechLog st)) as [[[[]|err] s1] logs]; simpl; try done.
  by destruct (SpeechLog.getCurrentSpeech s1) as [[[caption|err] s2] logs2].
Qed.

(** Every action reaches the ledger through its public methods only. *)
Lemma step_ledger a st :
  exists cs, speechLog (step window a st).1 = calls cs (speechLog st).
Proof.
  destruct a as [| |e]; simpl.
  - exists []. unfold init. destruct (recognizer st); [by destruct window | done | done].
  - unfold start. destruct (negb (available st) || _); [by exists []|].
    rewrite onLedger_init. by exists [Init].
  - destruct (recognizer st); [by exists [] | by exists [] |].
    destruct e; try (by exists []).
    + rewrite onend_run. by exists [Init].
    + simpl. destruct (negb (isSpeechAvailable st) && _ && _); by exists [].
    + rewrite onresult_run.
      destruct (SpeechLog.update ev (speechLog st)) as [[[[]|err] s1] logs] eqn:Hup.
      * pose proof (getCurrentSpeech_after s1) as Hsame.
        destruct (SpeechLog.getCurrentSpeech s1) as [[[caption|err] s2] logs2];
          simpl in Hsame; subst s2; exists [Update ev]; simpl; by rewrite Hup.
      * exists [Update ev]. simpl. by rewrite Hup.
      * exists [Update ev]. simpl. by rewrite Hup.
Qed.

Lemma run_ledger actions st :
  exists cs, speechLog (run window actions st).1 = calls cs (speechLog st).
Proof.
  revert st. induction actions as [|a rest IH]; intros st; [by exists []|].
  simpl. destruct (step_ledger a st) as [cs1 H1].
  destruct (step window a st) as [st1 effs1]. simpl in H1.
  destruct (IH st1) as [cs2 H2].
  destruct (run window rest st1) as [st2 effs2]. simpl in *.
  exists (cs1 ++ cs2). by rewrite calls_app, <- H1.
Qed.

Lemma calls_wholeLog_prefix cs s :
  SpeechLog.wholeLog s `prefix_of` SpeechLog.wholeLog (calls cs s).
Proof.
  revert s. induction cs as [|c cs IH]; intros s; [done|].
  simpl. etransitivity; [|apply IH].
  destruct c as [|ev| |]; simpl.
  - rewrite init_run. simpl. by apply prefix_app_r.
  - by rewrite (update_keeps_wholeLog ev s).
  - by rewrite getCurrentSpeech_after.
  - by rewrite getWholeLog_after.
Qed.

End AdapterMore.

(** X16. Whatever the page and the recognizer do, in any order, the adapter
    reaches its ledger only through [init()], [update()] and
    [getCurrentSpeech()]: the ledger after any run is the ledger before it
    after some sequence of these calls. So the ledger's [wholeLog] only ever
    grows at its end, and a ledger that started empty never stores a result
    with a [null] or empty top transcript. *)
Theorem adapter_never_loses_archived_results
    (window : SpeechRecognizer.Window) (actions : list SpeechRecognizer.Action) :
  (forall st,
     let st' := (SpeechRecognizer.run window actions st).1 in
     (exists cs, SpeechRecognizer.speechLog st' = calls cs (SpeechRecognizer.speechLog st))
     /\ SpeechLog.wholeLog (SpeechRecognizer.speechLog st)
          `prefix_of` SpeechLog.wholeLog (SpeechRecognizer.speechLog st'))
  /\ (let st' := (SpeechRecognizer.run window actions
                    (SpeechRecognizer.new SpeechLog.new)).1 in
      Forall (fun r => hasText r = true)
        (SpeechLog.wholeLog (SpeechRecognizer.speechLog st')
         ++ SpeechLog.currentResults (SpeechRecognizer.speechLog st')
         ++ SpeechLog.interimResults (SpeechRecognizer.speechLog st'))).
Proof.
  split.
  - intros st st'. subst st'.
    destruct (run_ledger window actions st) as [cs Hcs].
    split; [by exists cs|]. rewrite Hcs. apply calls_wholeLog_prefix.
  - intros st'. subst st'.
    destruct (run_ledger window actions (SpeechRecognizer.new SpeechLog.new)) as [cs Hcs].
    rewrite Hcs. simpl.
    destruct (calls_stored cs _ (new_stored 300)) as (Hw & Hc & Hi).
    rewrite !Forall_app. done.
Qed.

Section AdapterSteps.
Import SpeechRecognizer.
Variable window : Window.

Lemma filter_effects_app (f : Effect -> bool) (l1 l2 : list Effect) :
  List.filter f (l1 ++ l2) = List.filter f l1 ++ List.filter f l2.
Proof. apply List.filter_app. Qed.

(** The [result] handler touches the ledger only, and neither calls
    [onCritical] nor starts the recognizer. *)
Lemma onresult_fields ev st :
  let '(st', effs) := handle (onresult ev) st in
  recognizer st' = recognizer st
  /\ isSpeechAvailable st' = isSpeechAvailable st
  /\ available st' = available st
  /\ criticalCount effs = 0%nat
  /\ startCount effs = 0%nat.
Proof.
  rewrite onresult_run. unfold criticalCount, startCount.
  destruct (SpeechLog.update ev (speechLog st)) as [[[[]|err] s1] logs].
  - destruct (SpeechLog.getCurrentSpeech s1) as [[[caption|err] s2] logs2];
      rewrite !filter_effects_app, !ledger_logs_filtered by done; by repeat split.
  - rewrite !ledger_logs_filtered by done. by repeat split.
  - rewrite !filter_effects_app, !ledger_logs_filtered by done. by repeat split.
Qed.

(** One action: when [onCritical] is invoked, and what becomes of
    [available]. *)
Lemma step_critical a st :
  let '(st', effs) := step window a st in
  criticalCount effs = (if isFatal a st then 1 else 0)%nat
  /\ available st'
     = if isFatal a st then false
       else match a, recognizer st with
            | CallInit, Undefined =>
                match window with WithoutRecognition => false | _ => true end
            | _, _ => available st
            end.
Proof.
  destruct a as [| |e]; simpl.
  - unfold init. destruct (recognizer st); [by destruct window | done | done].
  - pose proof (start_fields st) as Hf. destruct (start st) as [[b st'] effs].
    destruct Hf as (_ & _ & Ha & Hc). by destruct (recognizer st).
  - unfold isFatal.
    destruct (recognizer st) eqn:Hr; [by destruct e | by destruct e |].
    destruct e; try done.
    + rewrite onend_run, Hr. simpl.
      by destruct (available st).
    + simpl. by destruct (negb (isSpeechAvailable st) && _ && _).
    + pose proof (onresult_fields ev st) as Hf.
      destruct (handle (onresult ev) st) as [st' effs].
      by destruct Hf as (_ & _ & Ha & Hc & _).
Qed.

(** One action on an adapter that has its recognizer, is available and has
    seen [speechstart]. *)
Lemma step_confirmed a st :
  recognizer st = Object -> available st = true -> isSpeechAvailable st = true ->
  let '(st', effs) := step window a st in
  recognizer st' = Object /\ available st' = true /\ isSpeechAvailable st' = true
  /\ criticalCount effs = 0%nat
  /\ startCount effs = (if asksToStart a then 1 else 0)%nat.
Proof.
  intros Hr Ha Hs. destruct a as [| |e]; simpl.
  - unfold init. by rewrite Hr.
  - by rewrite start_run.
  - rewrite Hr. destruct e; try done.
    + rewrite onend_run, Ha, Hr. done.
    + simpl. by rewrite Hs.
    + pose proof (onresult_fields ev st) as Hf.
      destruct (handle (onresult ev) st) as [st' effs].
      destruct Hf as (Hr' & Hs' & Ha' & Hc & Hst). rewrite Hr', Hs', Ha'. done.
Qed.

End AdapterSteps.

(** X14. For every action on every adapter state: [onCritical] is invoked
    once if the action is an [error] event delivered to an adapter that has
    its recognizer object and has not seen [speechstart], with a code other
    than 'no-speech' and 'aborted', and not at all otherwise; [available]
    becomes [false] in that case, is set by the first [init()] according to
    what [window] offers, and is left alone by everything else. *)
Theorem onCritical_only_for_early_errors
    (window : SpeechRecognizer.Window) (a : SpeechRecognizer.Action)
    (st : SpeechRecognizer.t) :
  SpeechRecognizer.criticalCount (SpeechRecognizer.step window a st).2
  = (if isFatal a st then 1 else 0)%nat
  /\ SpeechRecognizer.available (SpeechRecognizer.step window a st).1
     = if isFatal a st then false
       else match a, SpeechRecognizer.recognizer st with
            | SpeechRecognizer.CallInit, SpeechRecognizer.Undefined =>
                match window with
                | SpeechRecognizer.WithoutRecognition => false
                | _ => true
                end
            | _, _ => SpeechRecognizer.available st
            end.
Proof.
  pose proof (step_critical window a st) as H.
  by destruct (SpeechRecognizer.step window a st) as [st' effs].
Qed.

(** X13. Once an available adapter with its recognizer object has seen
    [speechstart], no sequence of calls and events makes it unavailable or
    invokes [onCritical], whatever errors arrive; and the recognizer is
    started exactly once for each [start()] call and each [end] event, so
    every session that ends is followed by a restart. *)
Theorem confirmed_speech_keeps_restarting
    (window : SpeechRecognizer.Window) (st : SpeechRecognizer.t)
    (actions : list SpeechRecognizer.Action) :
  SpeechRecognizer.recognizer st = SpeechRecognizer.Object ->
  SpeechRecognizer.available st = true ->
  SpeechRecognizer.isSpeechAvailable st = true ->
  let '(st', effs) := SpeechRecognizer.run window actions st in
  SpeechRecognizer.recognizer st' = SpeechRecognizer.Object
  /\ SpeechRecognizer.available st' = true
  /\ SpeechRecognizer.isSpeechAvailable st' = true
  /\ SpeechRecognizer.criticalCount effs = 0%nat
  /\ SpeechRecognizer.startCount effs = length (List.filter asksToStart actions).
Proof.
  revert st. induction actions as [|a rest IH]; intros st Hr Ha Hs; [done|].
  simpl. pose proof (step_confirmed window a st Hr Ha Hs) as H1.
  destruct (SpeechRecognizer.step window a st) as [st1 effs1].
  destruct H1 as (Hr1 & Ha1 & Hs1 & Hc1 & Hst1).
  specialize (IH st1 Hr1 Ha1 Hs1).
  destruct (SpeechRecognizer.run window rest st1) as [st2 effs2].
  destruct IH as (Hr2 & Ha2 & Hs2 & Hc2 & Hst2).
  repeat split; try done.
  - unfold SpeechRecognizer.criticalCount in *. by rewrite count_app, Hc1, Hc2.
  - unfold SpeechRecognizer.startCount in *. rewrite count_app, Hst1, Hst2.
    by destruct (asksToStart a).
Qed.

Lemma confirmed_speech_keeps_restarting_witness :
  let window := SpeechRecognizer.WithWebkitSpeechRecognition in
  let st := (SpeechRecognizer.run window
               [SpeechRecognizer.CallInit; SpeechRecognizer.CallStart;
                SpeechRecognizer.Deliver SpeechRecognizer.onspeechstart]
               (SpeechRecognizer.new SpeechLog.new)).1 in
  let actions := [SpeechRecognizer.Deliver (SpeechRecognizer.onerror "network" "");
                  SpeechRecognizer.Deliver SpeechRecognizer.onend;
                  SpeechRecognizer.Deliver (SpeechRecognizer.onerror "no-speech" "");
                  SpeechRecognizer.Deliver SpeechRecognizer.onend] in
  let '(st', effs) := SpeechRecognizer.run window actions st in
  SpeechRecognizer.recognizer st' = SpeechRecognizer.Object
  /\ SpeechRecognizer.available st' = true
  /\ SpeechRecognizer.isSpeechAvailable st' = true
  /\ SpeechRecognizer.criticalCount effs = 0%nat
  /\ SpeechRecognizer.startCount effs = 2%nat.
Proof.
  intros window st actions.
  exact (confirmed_speech_keeps_restarting window st actions eq_refl eq_refl eq_refl).
Defined.

(** X15. The [end] event, delivered to an adapter that has its recognizer
    object: the ledger's current results are appended in order to its
    [wholeLog], its current and interim results are emptied and its
    [indexFinished] is -1; the flags of the adapter are untouched; and the
    recognizer is started once if the adapter is available and not at all
    if it is not. *)
Theorem end_event_archives_and_restarts
    (window : SpeechRecognizer.Window) (st : SpeechRecognizer.t) :
  SpeechRecognizer.recognizer st = SpeechRecognizer.Object ->
  let '(st', effs) :=
    SpeechRecognizer.step window (SpeechRecognizer.Deliver SpeechRecognizer.onend) st in
  SpeechRecognizer.speechLog st'
  = SpeechLog.mk (SpeechLog.maxCharacters (SpeechRecognizer.speechLog st))
      (SpeechLog.wholeLog (SpeechRecognizer.speechLog st)
       ++ SpeechLog.currentResults (SpeechRecognizer.speechLog st)) [] [] (-1)
  /\ SpeechRecognizer.available st' = SpeechRecognizer.available st
  /\ SpeechRecognizer.isSpeechAvailable st' = SpeechRecognizer.isSpeechAvailable st
  /\ SpeechRecognizer.recognizer st' = SpeechRecognizer.Object
  /\ SpeechRecognizer.startCount effs
     = (if SpeechRecognizer.available st then 1 else 0)%nat
  /\ SpeechRecognizer.criticalCount effs = 0%nat.
Proof.
  intros Hr. unfold SpeechRecognizer.step. rewrite Hr. cbv iota beta.
  rewrite onend_run, Hr, init_run. simpl.
  by destruct (SpeechRecognizer.available st).
Qed.

Lemma end_event_archives_and_restarts_witness :
  let st := SpeechRecognizer.mk SpeechRecognizer.Object true true
              (SpeechLog.mk 300 [final (JsString.lit "a")] [final (JsString.lit "b")]
                 [interim (JsString.lit "c")] 0) in
  let '(st', effs) :=
    SpeechRecognizer.step SpeechRecognizer.WithSpeechRecognition
      (SpeechRecognizer.Deliver SpeechRecognizer.onend) st in
  SpeechRecognizer.speechLog st'
  = SpeechLog.mk 300 [final (JsString.lit "a"); final (JsString.lit "b")] [] [] (-1)
  /\ SpeechRecognizer.startCount effs = 1%nat.
Proof.
  intros st.
  pose proof (end_event_archives_and_restarts
                SpeechRecognizer.WithSpeechRecognition st eq_refl) as H.
  simpl in H. simpl. destruct H as (Hlog & _ & _ & _ & Hstart & _).
  split; [exact Hlog | exact Hstart].
Defined.


(* ===================================================================== *)
(** ** The time stamp of the downloads *)
(* ===================================================================== *)

Lemma digit_is_no_separator (d c : N) :
  isDigit d = true -> (c < 48 \/ 57 < c)%N -> N.eqb d c = false.
Proof.
  intros Hd Hc. unfold isDigit in Hd. apply andb_true_iff in Hd as [H1 H2].
  apply N.leb_le in H1, H2. apply N.eqb_neq. lia.
Qed.

(** One [replaceAll] over a string of digits and separators. *)
Ltac replace_stage :=
  unfold Page.replaceAll; simpl;
  repeat match goal with
    | |- context [N.eqb ?d ?c] =>
        rewrite (digit_is_no_separator d c) by first [assumption | lia]
    end;
  reflexivity.

Lemma timestampText_run (y1 y2 y3 y4 mo1 mo2 d1 d2 h1 h2 mi1 mi2 s1 s2 f1 f2 f3 : N) :
  Forall (fun d => isDigit d = true)
    [y1; y2; y3; y4; mo1; mo2; d1; d2; h1; h2; mi1; mi2; s1; s2; f1; f2; f3] ->
  Page.timestampText
    (isoString y1 y2 y3 y4 mo1 mo2 d1 d2 h1 h2 mi1 mi2 s1 s2 f1 f2 f3)
  = [y1; y2; y3; y4; mo1; mo2; d1; d2; 95; h1; h2; mi1; mi2; s1; s2]%N.
Proof.
  intros H.
  repeat match goal with
    | H : Forall _ (_ :: _) |- _ => apply Forall_cons in H as [? H]
    end.
  unfold Page.timestampText, isoString.
  change (JsString.lit "_") with [95%N].
  assert (E1 : Page.replaceAll
    [y1; y2; y3; y4; 45; mo1; mo2; 45; d1; d2; 84; h1; h2; 58; mi1; mi2; 58; s1; s2; 46;
     f1; f2; f3; 90]%N 84 [95%N]
    = [y1; y2; y3; y4; 45; mo1; mo2; 45; d1; d2; 95; h1; h2; 58; mi1; mi2; 58; s1; s2; 46;
       f1; f2; f3; 90]%N) by replace_stage.
  rewrite E1.
  assert (E2 : Page.replaceAll
    [y1; y2; y3; y4; 45; mo1; mo2; 45; d1; d2; 95; h1; h2; 58; mi1; mi2; 58; s1; s2; 46;
     f1; f2; f3; 90]%N 90 []
    = [y1; y2; y3; y4; 45; mo1; mo2; 45; d1; d2; 95; h1; h2; 58; mi1; mi2; 58; s1; s2; 46;
       f1; f2; f3]%N) by replace_stage.
  rewrite E2.
  assert (E3 : Page.replaceAll
    [y1; y2; y3; y4; 45; mo1; mo2; 45; d1; d2; 95; h1; h2; 58; mi1; mi2; 58; s1; s2; 46;
     f1; f2; f3]%N 58 []
    = [y1; y2; y3; y4; 45; mo1; mo2; 45; d1; d2; 95; h1; h2; mi1; mi2; s1; s2; 46;
       f1; f2; f3]%N) by replace_stage.
  rewrite E3.
  assert (E4 : Page.replaceAll
    [y1; y2; y3; y4; 45; mo1; mo2; 45; d1; d2; 95; h1; h2; mi1; mi2; s1; s2; 46;
     f1; f2; f3]%N 45 []
    = [y1; y2; y3; y4; mo1; mo2; d1; d2; 95; h1; h2; mi1; mi2; s1; s2; 46;
       f1; f2; f3]%N) by replace_stage.
  rewrite E4. reflexivity.
Qed.

(** X18. For every time stamp YYYY-MM-DDTHH:mm:ss.sssZ (digits in the
    places of the letters), the text both download handlers put in the file
    name is YYYYMMDD_HHmmss: 15 characters, the digits of date and time in
    order with one underscore between them, no colon, hyphen, dot, T or Z
    and nothing of the milliseconds; the caption file is named
    captioncam_YYYYMMDD_HHmmss.txt and the operation log
    captioncam_op_YYYYMMDD_HHmmss.txt. *)
Theorem download_name_carries_date_and_time
    (y1 y2 y3 y4 mo1 mo2 d1 d2 h1 h2 mi1 mi2 s1 s2 f1 f2 f3 : N) :
  Forall (fun d => isDigit d = true)
    [y1; y2; y3; y4; mo1; mo2; d1; d2; h1; h2; mi1; mi2; s1; s2; f1; f2; f3] ->
  let iso := isoString y1 y2 y3 y4 mo1 mo2 d1 d2 h1 h2 mi1 mi2 s1 s2 f1 f2 f3 in
  Page.timestampText iso
  = [y1; y2; y3; y4; mo1; mo2; d1; d2; 95; h1; h2; mi1; mi2; s1; s2]%N
  /\ Page.captionFileName iso
     = JsString.lit "captioncam_"
       ++ [y1; y2; y3; y4; mo1; mo2; d1; d2; 95; h1; h2; mi1; mi2; s1; s2]%N
       ++ JsString.lit ".txt"
  /\ Page.opLogFileName iso
     = JsString.lit "captioncam_op_"
       ++ [y1; y2; y3; y4; mo1; mo2; d1; d2; 95; h1; h2; mi1; mi2; s1; s2]%N
       ++ JsString.lit ".txt".
Proof.
  intros H iso. subst iso. unfold Page.captionFileName, Page.opLogFileName.
  by rewrite (timestampText_run _ _ _ _ _ _ _ _ _ _ _ _ _ _ _ _ _ H).
Qed.

Lemma download_name_carries_date_and_time_witness :
  Page.captionFileName (JsString.lit "2022-11-03T05:44:12.345Z")
  = JsString.lit "captioncam_20221103_054412.txt".
Proof.
  exact (proj1 (proj2 (download_name_carries_date_and_time
    50 48 50 50 49 49 48 51 48 53 52 52 49 50 51 52 53
    ltac:(repeat constructor)))).
Defined.

(** X17. The [result] event, delivered to an adapter that has its
    recognizer object, on a run that began with the constructor and an
    empty ledger: for an event with a [resultIndex] that is not negative and
    visited results that each have a top alternative, the handler leaves the
    ledger as [update] leaves it and throws nothing; if no visited result
    has text, [onUpdated] is not invoked; otherwise it is invoked exactly
    once, with the caption of the updated ledger. *)
Theorem result_event_updates_caption_once
    (window : SpeechRecognizer.Window) (m : Z)
    (before : list SpeechRecognizer.Action) (ev : SpeechRecognitionEvent) :
  let st := (SpeechRecognizer.run window before
               (SpeechRecognizer.new (SpeechLog.set_maxCharacters m SpeechLog.new))).1 in
  SpeechRecognizer.recognizer st = SpeechRecognizer.Object ->
  0 <= resultIndex ev ->
  Forall (fun r => hasTop r = true) (scanned (SpeechRecognizer.speechLog st) ev) ->
  let '(st', effs) :=
    SpeechRecognizer.step window
      (SpeechRecognizer.Deliver (SpeechRecognizer.onresult ev)) st in
  SpeechRecognizer.speechLog st'
  = SpeechLog.after (SpeechLog.update ev (SpeechRecognizer.speechLog st))
  /\ List.filter isUpdated effs
     = match List.filter hasText (scanned (SpeechRecognizer.speechLog st) ev) with
       | [] => []
       | _ => [SpeechRecognizer.Updated (captionOf (SpeechRecognizer.speechLog st'))]
       end
  /\ List.filter isUncaught effs = [].
Proof.
  intros st Hr Hix Htop.
  destruct (run_ledger window before
              (SpeechRecognizer.new (SpeechLog.set_maxCharacters m SpeechLog.new)))
    as [cs Hcs].
  fold st in Hcs. simpl in Hcs.
  assert (Hs : stored_with_text (SpeechRecognizer.speechLog st))
    by (rewrite Hcs; apply calls_stored, new_stored).
  pose proof (scanStart_nonneg (SpeechRecognizer.speechLog st) ev Hix) as Hstart.
  pose proof (update_outcome ev _ Hs Hstart Htop) as Hout.
  pose proof (update_stored ev _ Hs) as Hs1.
  unfold SpeechRecognizer.step. rewrite Hr. cbv iota beta. rewrite onresult_run.
  destruct (SpeechLog.update ev (SpeechRecognizer.speechLog st)) as [[c s1] logs].
  simpl in Hout, Hs1. subst c.
  destruct (List.filter hasText (scanned (SpeechRecognizer.speechLog st) ev))
    as [|r items].
  - simpl. rewrite !ledger_logs_filtered by done. done.
  - destruct (Z.ltb_spec (Z.of_nat (length (r :: items))) 1) as [Hlt|_];
      [simpl in Hlt; lia|].
    simpl negb. cbv iota.
    assert (Hread : Forall (fun r => hasTop r = true)
              (SpeechLog.currentResults s1 ++ SpeechLog.interimResults s1)).
    { pose proof (stored_all_hasTop s1 Hs1) as H. by apply Forall_app in H as [_ H]. }
    rewrite (getCurrentSpeech_run s1 Hread). simpl.
    rewrite !filter_effects_app, !ledger_logs_filtered by done. done.
Qed.

Lemma result_event_updates_caption_once_witness :
  let window := SpeechRecognizer.WithSpeechRecognition in
  let before := [SpeechRecognizer.CallInit; SpeechRecognizer.CallStart;
                 SpeechRecognizer.Deliver
                   (SpeechRecognizer.onresult (mkEvent 0 [final (JsString.lit "Hi")]))] in
  let ev := mkEvent 1 [final (JsString.lit "Hi"); interim (JsString.lit "you")] in
  let st := (SpeechRecognizer.run window before
               (SpeechRecognizer.new (SpeechLog.set_maxCharacters 300 SpeechLog.new))).1 in
  List.filter isUpdated
    (SpeechRecognizer.step window
       (SpeechRecognizer.Deliver (SpeechRecognizer.onresult ev)) st).2
  = [SpeechRecognizer.Updated [72; 105; 12290; 121; 111; 117]%N].
Proof.
  intros window before ev st.
  pose proof (result_event_updates_caption_once window 300 before ev
                eq_refl ltac:(simpl; lia) ltac:(vm_compute; repeat constructor)) as H.
  fold st in H.
  destruct (SpeechRecognizer.step window
              (SpeechRecognizer.Deliver (SpeechRecognizer.onresult ev)) st)
    as [st' effs] eqn:Hstep.
  destruct H as (Hlog & Hupd & _). simpl. rewrite Hupd, Hlog. reflexivity.
Defined.


(* ===================================================================== *)
(** ** The budget and [update] *)
(* ===================================================================== *)

Section Budget.
Import SpeechLog.
Variable m : Z.

Lemma extractLoop_budget ev ixs acc s :
  foldM (extractStep ev) ixs acc (set_maxCharacters m s)
  = withBudget m (foldM (extractStep ev) ixs acc s).
Proof.
  revert acc s. induction ixs as [|ix ixs IH]; intros acc s; [done|].
  simpl. unfold bind. rewrite !extractStep_run.
  destruct (item (results ev) ix) as [r|]; [|done]. simpl.
  destruct (hasTop r); [|by destruct (isFinal r)].
  destruct (isFinal r); simpl.
  - change (set_indexFinished (Z.max ix (indexFinished s)) (set_maxCharacters m s))
      with (set_maxCharacters m (set_indexFinished (Z.max ix (indexFinished s)) s)).
    rewrite IH. by destruct (foldM _ ixs _ _) as [[c s2] l2].
  - rewrite IH. by destruct (foldM _ ixs _ _) as [[c s2] l2].
Qed.

Lemma extractUpdate_budget ev s :
  _extractUpdate ev (set_maxCharacters m s) = withBudget m (_extractUpdate ev s).
Proof.
  rewrite !extractUpdate_unfold.
  change (scanStart (set_maxCharacters m s) ev) with (scanStart s ev).
  rewrite extractLoop_budget.
  by destruct (foldM _ _ _ s) as [[[items|e] s1] l1].
Qed.

Lemma pushUpdate_budget r s :
  _pushUpdate r (set_maxCharacters m s) = withBudget m (_pushUpdate r s).
Proof.
  destruct s as [mx whole cur inter ix].
  unfold _pushUpdate, withBudget. destruct (isFinal r); [|done].
  unfold bind, get, deref, ret, when, modify, throw, set_maxCharacters. simpl.
  destruct (getLastItem cur) as [l|]; [|done].
  destruct (top r) as [alt|]; [|done]. simpl.
  destruct (transcript alt) as [text|]; [|done]. simpl.
  destruct (top l) as [lalt|]; [|done]. simpl.
  by destruct (JsString.startsWith text (JsString.toString (transcript lalt))).
Qed.

Lemma forEach_push_budget items s :
  forEach items _pushUpdate (set_maxCharacters m s)
  = withBudget m (forEach items _pushUpdate s).
Proof.
  revert s. induction items as [|r items IH]; intros s; [done|].
  simpl. unfold bind. rewrite pushUpdate_budget.
  destruct (_pushUpdate r s) as [[[[]|e] s1] l1]; simpl; [|done].
  rewrite IH. by destruct (forEach items _pushUpdate s1) as [[c s2] l2].
Qed.

Lemma update_budget ev s :
  update ev (set_maxCharacters m s) = withBudget m (update ev s).
Proof.
  rewrite !update_unfold, extractUpdate_budget.
  change (warning (set_maxCharacters m s) ev) with (warning s ev).
  destruct (_extractUpdate ev s) as [[[items|e] s1] l1]; simpl; [|done].
  destruct (Z.of_nat (length items) <? 1); [done|].
  change (set_interimResults [] (set_maxCharacters m s1))
    with (set_maxCharacters m (set_interimResults [] s1)).
  rewrite forEach_push_budget.
  by destruct (forEach items _pushUpdate (set_interimResults [] s1)) as [[[[]|e] s2] l2].
Qed.

End Budget.

(** X11. [update] never looks at [maxCharacters]: for every ledger, event
    and budget, [update] on the ledger with the budget changed completes in
    the same way, logs the same and leaves the same ledger but for the
    budget; and so does any sequence of updates. *)
Theorem update_ignores_the_budget :
  (forall m s ev,
     SpeechLog.update ev (SpeechLog.set_maxCharacters m s)
     = withBudget m (SpeechLog.update ev s))
  /\ (forall m s evs,
        calls (Update <$> evs) (SpeechLog.set_maxCharacters m s)
        = SpeechLog.set_maxCharacters m (calls (Update <$> evs) s)).
Proof.
  split; [intros m s ev; apply update_budget|].
  intros m s evs. revert s. induction evs as [|ev evs IH]; intros s; [done|].
  simpl. rewrite update_budget.
  destruct (SpeechLog.update ev s) as [[c s1] l1]. simpl. apply IH.
Qed.

(** X12. Archived lines are permanent: on a ledger made by
    [new SpeechLog()] and used through any sequence of calls, the lines
    [getWholeLog()] returns for the entries of [wholeLog] are still the
    first lines of what [getWholeLog()] returns after any further sequence
    of calls, in the same order. *)
Theorem exported_archive_lines_are_permanent
    (m : Z) (cs more : list LedgerCall) :
  let s := calls cs (SpeechLog.set_maxCharacters m SpeechLog.new) in
  let s' := calls more s in
  exists rest rest',
    SpeechLog.outcome (SpeechLog.getWholeLog s)
    = SpeechLog.Normal (List.map lineOf (SpeechLog.wholeLog s) ++ rest)
    /\ SpeechLog.outcome (SpeechLog.getWholeLog s')
       = SpeechLog.Normal (List.map lineOf (SpeechLog.wholeLog s) ++ rest').
Proof.
  intros s s'.
  assert (Hs : stored_with_text s) by apply calls_stored, new_stored.
  assert (Hs' : stored_with_text s') by by apply calls_stored.
  destruct (calls_wholeLog_prefix more s) as [added Hadded]. fold s' in Hadded.
  exists (List.map lineOf (SpeechLog.currentResults s ++ SpeechLog.interimResults s)),
    (List.map lineOf
       (added ++ SpeechLog.currentResults s' ++ SpeechLog.interimResults s')).
  rewrite (getWholeLog_run s (stored_all_hasTop s Hs)).
  rewrite (getWholeLog_run s' (stored_all_hasTop s' Hs')).
  simpl. rewrite Hadded. split.
  - by rewrite <- List.map_app.
  - by rewrite <- List.map_app, <- app_assoc.
Qed.

Section AdapterRecognizer.
Import SpeechRecognizer.
Variable window : Window.

Lemma step_recognizer a st :
  recognizer st <> Undefined -> recognizer (step window a st).1 = recognizer st.
Proof.
  intros Hr. destruct a as [| |e]; simpl.
  - pose proof (init_fields window st) as Hf.
    destruct (init window st) as [[b st'] effs].
    destruct Hf as (Hsame & _). simpl. by rewrite (Hsame Hr).
  - pose proof (start_fields st) as Hf.
    destruct (start st) as [[b st'] effs]. by destruct Hf as (Hr' & _).
  - destruct (recognizer st) eqn:Hrec; [done | exact Hrec |].
    pose proof (handle_fields e st) as Hf.
    destruct (handle e st) as [st' effs]. destruct Hf as (Hr' & _).
    simpl. by rewrite Hr'.
Qed.

End AdapterRecognizer.

(** X19. [init()] takes effect once: after it has run, whatever it found,
    no sequence of calls and events changes [this.recognizer]: a recognizer
    that was missing is never looked for again, and one that was created is
    never replaced. Before it has run, no event reaches the adapter, and
    [start()] returns [false] and touches nothing. *)
Theorem recognizer_is_decided_once
    (window : SpeechRecognizer.Window) (actions : list SpeechRecognizer.Action) :
  (forall st,
     SpeechRecognizer.recognizer st <> SpeechRecognizer.Undefined ->
     SpeechRecognizer.recognizer (SpeechRecognizer.run window actions st).1
     = SpeechRecognizer.recognizer st)
  /\ (forall st,
        SpeechRecognizer.recognizer st = SpeechRecognizer.Undefined ->
        Forall (fun a => a <> SpeechRecognizer.CallInit) actions ->
        (SpeechRecognizer.run window actions st).1 = st
        /\ SpeechRecognizer.startCount (SpeechRecognizer.run window actions st).2 = 0%nat
        /\ (SpeechRecognizer.start st).1.1 = false).
Proof.
  split.
  - induction actions as [|a rest IH]; intros st Hr; [done|].
    simpl. pose proof (step_recognizer window a st Hr) as H1.
    destruct (SpeechRecognizer.step window a st) as [st1 effs1]. simpl in H1.
    specialize (IH st1 ltac:(by rewrite H1)).
    destruct (SpeechRecognizer.run window rest st1) as [st2 effs2]. simpl in *.
    by rewrite IH.
  - intros st Hr Hno.
    assert (Hstart : SpeechRecognizer.start st
                     = (false, st, [SpeechRecognizer.Log "SpeechRecognizer.start() begins."])).
    { unfold SpeechRecognizer.start. rewrite Hr. by rewrite orb_true_r. }
    split; [|split; [|by rewrite Hstart]].
    + induction Hno as [|a rest Ha _ IH]; [done|]. simpl.
      destruct a as [| |e]; [done | |]; simpl.
      * rewrite Hstart. by destruct (SpeechRecognizer.run window rest st) as [st2 effs2].
      * rewrite Hr. by destruct (SpeechRecognizer.run window rest st) as [st2 effs2].
    + induction Hno as [|a rest Ha _ IH]; [done|]. simpl.
      destruct a as [| |e]; [done | |]; simpl.
      * rewrite Hstart.
        destruct (SpeechRecognizer.run window rest st) as [st2 effs2]. simpl in *.
        done.
      * rewrite Hr.
        destruct (SpeechRecognizer.run window rest st) as [st2 effs2]. simpl in *.
        done.
Qed.

Lemma recognizer_is_decided_once_witness :
  let window := SpeechRecognizer.WithoutRecognition in
  let st := (SpeechRecognizer.run window [SpeechRecognizer.CallInit]
               (SpeechRecognizer.new SpeechLog.new)).1 in
  SpeechRecognizer.recognizer
    (SpeechRecognizer.run window
       [SpeechRecognizer.CallInit; SpeechRecognizer.CallStart;
        SpeechRecognizer.Deliver SpeechRecognizer.onend] st).1
  = SpeechRecognizer.Null.
Proof.
  intros window st.
  exact (proj1 (recognizer_is_decided_once window
                  [SpeechRecognizer.CallInit; SpeechRecognizer.CallStart;
                   SpeechRecognizer.Deliver SpeechRecognizer.onend])
           st ltac:(discriminate)).
Defined.
